(** * SparseMatrix (src/matrix.js): a shallow embedding and its properties

    The development follows the JavaScript class [SparseMatrix]:
    - JavaScript strings are lists of characters ([jsstring]); the model
      covers the code units below 256, which is where every character the
      program inspects lives (digits, [=], [(], [,], [-], [)], white space);
    - JavaScript numbers are modelled as exact integers: coordinates and
      dimensions as [nat], stored values as [Z].  Rounding of IEEE doubles
      (beyond 2^53) and exponent notation (from 1e21) are outside the model;
    - the [Map] of elements is an association list in insertion order, with
      the update-in-place behaviour of [Map.prototype.set];
    - thrown [Error] objects are records of a message and an optional
      [code] property;
    - the file system is a function from paths to the outcome of
      [fs.readFileSync]. *)

From Stdlib Require Import List Arith ZArith NArith Lia Bool Ascii String.
From Stdlib Require Import DecimalPos DecimalN.
Import ListNotations.

Open Scope char_scope.
Open Scope list_scope.

(** ** JavaScript strings *)

Definition jsstring := list ascii.

(** String literals are read as character lists. *)
Coercion list_ascii_of_string : string >-> list.

Definition is_digit (c : ascii) : bool :=
  match c with
  | "0" | "1" | "2" | "3" | "4" | "5" | "6" | "7" | "8" | "9" => true
  | _ => false
  end.

(** White space and line terminators of ECMAScript below code unit 256:
    TAB, LF, VT, FF, CR, SP and NBSP.  [\s] and [trim] use the same set. *)
Definition is_space (c : ascii) : bool :=
  match c with
  | "009" | "010" | "011" | "012" | "013" | " " | "160" => true
  | _ => false
  end.

Fixpoint takeWhile (p : ascii -> bool) (s : jsstring) : jsstring :=
  match s with
  | c :: s' => if p c then c :: takeWhile p s' else []
  | [] => []
  end.

Fixpoint dropWhile (p : ascii -> bool) (s : jsstring) : jsstring :=
  match s with
  | c :: s' => if p c then dropWhile p s' else s
  | [] => []
  end.

(** [String.prototype.trim] *)
Definition trim (s : jsstring) : jsstring :=
  rev (dropWhile is_space (rev (dropWhile is_space s))).

(** [String.prototype.split] with a one-character separator: the empty
    string splits into one empty piece. *)
Fixpoint split (sep : ascii) (s : jsstring) : list jsstring :=
  match s with
  | [] => [[]]
  | c :: s' =>
      if Ascii.eqb c sep then [] :: split sep s'
      else match split sep s' with
           | piece :: pieces => (c :: piece) :: pieces
           | [] => [[c]]
           end
  end.

Fixpoint strip_prefix (p s : jsstring) : option jsstring :=
  match p, s with
  | [], _ => Some s
  | a :: p', b :: s' => if Ascii.eqb a b then strip_prefix p' s' else None
  | _ :: _, [] => None
  end.

(** ** Numbers and their decimal text *)

Fixpoint uint_chars (d : Decimal.uint) : jsstring :=
  match d with
  | Decimal.Nil => []
  | Decimal.D0 d => "0" :: uint_chars d
  | Decimal.D1 d => "1" :: uint_chars d
  | Decimal.D2 d => "2" :: uint_chars d
  | Decimal.D3 d => "3" :: uint_chars d
  | Decimal.D4 d => "4" :: uint_chars d
  | Decimal.D5 d => "5" :: uint_chars d
  | Decimal.D6 d => "6" :: uint_chars d
  | Decimal.D7 d => "7" :: uint_chars d
  | Decimal.D8 d => "8" :: uint_chars d
  | Decimal.D9 d => "9" :: uint_chars d
  end.

(** Number-to-string conversion, as a template literal performs it. *)
Definition String_of_N (n : N) : jsstring := uint_chars (N.to_uint n).

Definition String_of_nat (n : nat) : jsstring := String_of_N (N.of_nat n).

Definition String_of_Z (z : Z) : jsstring :=
  match z with
  | Z0 => String_of_N 0
  | Zpos p => String_of_N (Npos p)
  | Zneg p => "-" :: String_of_N (Npos p)
  end.

Definition digit_value (c : ascii) : N :=
  match c with
  | "1" => 1 | "2" => 2 | "3" => 3 | "4" => 4 | "5" => 5
  | "6" => 6 | "7" => 7 | "8" => 8 | "9" => 9 | _ => 0
  end%N.

Fixpoint digits_acc (s : jsstring) (acc : N) : N :=
  match s with
  | [] => acc
  | c :: s' => digits_acc s' (10 * acc + digit_value c)%N
  end.

(** The value of a non-empty run of decimal digits. *)
Definition digits_value (s : jsstring) : option N :=
  match s with
  | [] => None
  | _ :: _ => if forallb is_digit s then Some (digits_acc s 0%N) else None
  end.

(** [parseInt], on the texts the program hands to it: an optional [-] and
    decimal digits.  Other texts (radix prefixes, white space, NaN results)
    are outside the model and give [None]. *)
Definition parseInt (s : jsstring) : option Z :=
  match s with
  | "-" :: s' => option_map (fun n => Z.opp (Z.of_N n)) (digits_value s')
  | _ => option_map Z.of_N (digits_value s)
  end.

(** [Number], on the texts the program hands to it: the pieces of a key,
    which are runs of decimal digits.  Other texts give [None]. *)
Definition Number (s : jsstring) : option nat :=
  option_map N.to_nat (digits_value s).

Open Scope string_scope.
Open Scope list_scope.

(** ** Completions

    A call either returns, or throws an [Error], or leaves the modelled
    fragment of JavaScript ([Unmodelled]: a [NaN] or [undefined] where the
    model has a natural number). *)

Record Error := new_Error_with { message : jsstring; code : option jsstring }.

(** [new Error(message)]: no [code] property. *)
Definition new_Error (msg : jsstring) : Error :=
  {| message := msg; code := None |}.

Inductive completion (A : Type) : Type :=
| Return (a : A)
| Throw (e : Error)
| Unmodelled.
Arguments Return {A} a.
Arguments Throw {A} e.
Arguments Unmodelled {A}.

Definition bind {A B} (c : completion A) (k : A -> completion B) : completion B :=
  match c with
  | Return a => k a
  | Throw e => Throw e
  | Unmodelled => Unmodelled
  end.

(** A value the model has, or [Unmodelled]. *)
Definition modelled {A} (o : option A) : completion A :=
  match o with
  | Some a => Return a
  | None => Unmodelled
  end.

Notation "x <- c ;; k" := (bind c (fun x => k))
  (at level 61, c at next level, right associativity).
Notation "' p <- c ;; k" := (bind c (fun x => let 'p := x in k))
  (at level 61, p pattern, c at next level, right associativity).

(** ** Regular expressions of [fromFile]

    The patterns carry no anchors, so [String.prototype.match] searches for
    the leftmost position at which the pattern matches.  Every quantified
    class is followed by a character outside the class (or by the end of the
    pattern), so the greedy choice is the only one that can succeed and the
    matchers below need no backtracking. *)

Fixpoint re_search {A} (at_start : jsstring -> option A) (s : jsstring)
  : option A :=
  match at_start s with
  | Some m => Some m
  | None => match s with
            | [] => None
            | _ :: s' => re_search at_start s'
            end
  end.

(** [\d+]: the digits matched and the rest of the text. *)
Definition digits1 (s : jsstring) : option (jsstring * jsstring) :=
  match takeWhile is_digit s with
  | [] => None
  | ds => Some (ds, dropWhile is_digit s)
  end.

Definition expect (c : ascii) (s : jsstring) : option jsstring :=
  match s with
  | x :: s' => if Ascii.eqb x c then Some s' else None
  | [] => None
  end.

(** [name(\d+)] at the start of [s]; the result is group 1. *)
Definition dim_at (name s : jsstring) : option jsstring :=
  match strip_prefix name s with
  | Some s1 => option_map fst (digits1 s1)
  | None => None
  end.

(** [/rows=(\d+)/] and [/cols=(\d+)/] *)
Definition rows_re : jsstring -> option jsstring := re_search (dim_at "rows=").
Definition cols_re : jsstring -> option jsstring := re_search (dim_at "cols=").

(** [-?] *)
Definition opt_minus (s : jsstring) : jsstring * jsstring :=
  match s with
  | "-"%char :: s' => (["-"%char], s')
  | _ => ([], s)
  end.

(** [\((\d+),\s*(\d+),\s*(-?\d+)\)] at the start of [s]; groups 1, 2, 3. *)
Definition element_at (s : jsstring) : option (jsstring * jsstring * jsstring) :=
  match expect "(" s with
  | None => None
  | Some s1 =>
  match digits1 s1 with
  | None => None
  | Some (g1, s2) =>
  match expect "," s2 with
  | None => None
  | Some s3 =>
  match digits1 (dropWhile is_space s3) with
  | None => None
  | Some (g2, s4) =>
  match expect "," s4 with
  | None => None
  | Some s5 =>
  let (sign, s6) := opt_minus (dropWhile is_space s5) in
  match digits1 s6 with
  | None => None
  | Some (g3, s7) =>
  match expect ")" s7 with
  | None => None
  | Some _ => Some (g1, g2, sign ++ g3)
  end end end end end end end.

(** [/\((\d+),\s*(\d+),\s*(-?\d+)\)/] *)
Definition element_re : jsstring -> option (jsstring * jsstring * jsstring) :=
  re_search element_at.

(** ** The [Map] of elements *)

Fixpoint str_eqb (a b : jsstring) : bool :=
  match a, b with
  | [], [] => true
  | x :: a', y :: b' => Ascii.eqb x y && str_eqb a' b'
  | _, _ => false
  end.

(** Entries in insertion order; keys are compared as strings. *)
Definition Map := list (jsstring * Z).

Fixpoint Map_get (k : jsstring) (m : Map) : option Z :=
  match m with
  | [] => None
  | (k', v) :: m' => if str_eqb k' k then Some v else Map_get k m'
  end.

(** [Map.prototype.set]: an existing key keeps its place, a new key goes
    to the end. *)
Fixpoint Map_set (k : jsstring) (v : Z) (m : Map) : Map :=
  match m with
  | [] => [(k, v)]
  | (k', v') :: m' =>
      if str_eqb k' k then (k', v) :: m' else (k', v') :: Map_set k v m'
  end.

(** ** class SparseMatrix *)

Record SparseMatrix := mkSparseMatrix
  { rows : nat; cols : nat; elements : Map }.

(** [constructor(rows, cols)] *)
Definition new_SparseMatrix (rows cols : nat) : SparseMatrix :=
  {| rows := rows; cols := cols; elements := [] |}.

(** The template literal [`${row},${col}`]. *)
Definition key (row col : nat) : jsstring :=
  String_of_nat row ++ "," ++ String_of_nat col.

(** [value || 0] *)
Definition or_zero (v : option Z) : Z :=
  match v with
  | Some v => if (v =? 0)%Z then 0%Z else v
  | None => 0%Z
  end.

Definition getElement (this : SparseMatrix) (row col : nat) : Z :=
  or_zero (Map_get (key row col) (elements this)).

Definition setElement (this : SparseMatrix) (row col : nat) (value : Z)
  : SparseMatrix :=
  {| rows := if (rows this <=? row)%nat then row + 1 else rows this;
     cols := if (cols this <=? col)%nat then col + 1 else cols this;
     elements := Map_set (key row col) value (elements this) |}.

(** [const [row, col] = key.split(',').map(Number)] *)
Definition key_coords (k : jsstring) : option (nat * nat) :=
  match map Number (split ","%char k) with
  | Some row :: Some col :: _ => Some (row, col)
  | _ => None
  end.

(** [for (const [key, value] of entries) body], the loop state threaded
    through the iterations. *)
Fixpoint for_of {S : Type} (entries : Map)
  (body : S -> jsstring -> Z -> completion S) (s : S) : completion S :=
  match entries with
  | [] => Return s
  | (k, v) :: entries' => s' <- body s k v ;; for_of entries' body s'
  end.

(** The first loop of [add] and of [subtract]. *)
Definition copy_entry (result : SparseMatrix) (k : jsstring) (value : Z)
  : completion SparseMatrix :=
  '(row, col) <- modelled (key_coords k) ;;
  Return (setElement result row col value).

Definition add (this other : SparseMatrix) : completion SparseMatrix :=
  if negb (rows this =? rows other)%nat || negb (cols this =? cols other)%nat then
    Throw (new_Error "Matrices must have the same dimensions for addition.")
  else
    let result := new_SparseMatrix (rows this) (cols this) in
    result <- for_of (elements this) copy_entry result ;;
    for_of (elements other)
      (fun result k value =>
         '(row, col) <- modelled (key_coords k) ;;
         let currentValue := getElement result row col in
         Return (setElement result row col (currentValue + value)%Z))
      result.

Definition subtract (this other : SparseMatrix) : completion SparseMatrix :=
  if negb (rows this =? rows other)%nat || negb (cols this =? cols other)%nat then
    Throw (new_Error "Matrices must have the same dimensions for subtraction.")
  else
    let result := new_SparseMatrix (rows this) (cols this) in
    result <- for_of (elements this) copy_entry result ;;
    for_of (elements other)
      (fun result k value =>
         '(row, col) <- modelled (key_coords k) ;;
         let currentValue := getElement result row col in
         Return (setElement result row col (currentValue - value)%Z))
      result.

(** The body of the inner loop of [multiply], for one [k]. *)
Definition multiply_step (other : SparseMatrix) (row col : nat) (value1 : Z)
  (result : SparseMatrix) (k : nat) : SparseMatrix :=
  let otherValue := getElement other col k in
  if negb (otherValue =? 0)%Z then
    let currentValue := getElement result row k in
    setElement result row k (currentValue + value1 * otherValue)%Z
  else result.

Definition multiply (this other : SparseMatrix) : completion SparseMatrix :=
  if negb (cols this =? rows other)%nat then
    Throw (new_Error
      "Number of columns of first matrix must equal number of rows of second matrix.")
  else
    let result := new_SparseMatrix (rows this) (cols other) in
    for_of (elements this)
      (fun result key1 value1 =>
         '(row, col) <- modelled (key_coords key1) ;;
         Return (fold_left (multiply_step other row col value1)
                           (seq 0 (cols other)) result))
      result.

Definition LF : ascii := "010"%char.

(** A missing piece of a destructured array is [undefined]. *)
Definition piece (i : nat) (pieces : list jsstring) : jsstring :=
  nth i pieces "undefined".

Definition toString (this : SparseMatrix) : jsstring :=
  let result :=
    "rows=" ++ String_of_nat (rows this) ++ [LF] ++
    "cols=" ++ String_of_nat (cols this) ++ [LF] in
  trim (fold_left
          (fun result '(k, value) =>
             let row := piece 0 (split ","%char k) in
             let col := piece 1 (split ","%char k) in
             result ++ "(" ++ row ++ ", " ++ col ++ ", " ++ String_of_Z value
                    ++ ")" ++ [LF])
          (elements this) result).

(** ** [SparseMatrix.fromFile] *)

(** A parsed coordinate is a natural number. *)
Definition coordinate (s : jsstring) : option nat :=
  match parseInt s with
  | Some z => if (z <? 0)%Z then None else Some (Z.to_nat z)
  | None => None
  end.

(** The loop [for (let i = 2; i < lines.length; i++)]: [rest] holds the
    lines from index [i] on. *)
Fixpoint parse_elements (filePath : jsstring) (rest : list jsstring) (i : nat)
  (matrix : SparseMatrix) : completion SparseMatrix :=
  match rest with
  | [] => Return matrix
  | line :: rest' =>
      match line with
      | [] => parse_elements filePath rest' (S i) matrix
      | _ :: _ =>
          match element_re line with
          | None =>
              Throw (new_Error ("Invalid format at line " ++ String_of_nat (i + 1)
                                ++ " in file " ++ filePath ++ ": " ++ line))
          | Some (g1, g2, g3) =>
              row <- modelled (coordinate g1) ;;
              col <- modelled (coordinate g2) ;;
              value <- modelled (parseInt g3) ;;
              parse_elements filePath rest' (S i) (setElement matrix row col value)
          end
      end
  end.

(** The body of the [try] block once the content has been read. *)
Definition parse (filePath content : jsstring) : completion SparseMatrix :=
  let lines := map trim (split LF content) in
  if (List.length lines <? 2)%nat then
    Throw (new_Error ("File " ++ filePath
                      ++ " does not contain enough lines for matrix dimensions"))
  else
    let rowMatch := rows_re (nth 0 lines []) in
    let colMatch := cols_re (nth 1 lines []) in
    match rowMatch, colMatch with
    | Some g1, Some g2 =>
        totalRows <- modelled (coordinate g1) ;;
        totalCols <- modelled (coordinate g2) ;;
        let matrix := new_SparseMatrix totalRows totalCols in
        parse_elements filePath (skipn 2 lines) 2 matrix
    | _, _ =>
        Throw (new_Error ("Invalid dimension format in file " ++ filePath
                          ++ ". Expected 'rows=X' and 'cols=Y'"))
    end.

(** [fs.readFileSync(filePath, 'utf8')]: the content, or the error thrown. *)
Inductive read_result : Type :=
| ReadOk (content : jsstring)
| ReadError (e : Error).

Definition filesystem := jsstring -> read_result.

Definition ENOENT : jsstring := "ENOENT".

Definition code_is (c : jsstring) (e : Error) : bool :=
  match code e with
  | Some c' => str_eqb c' c
  | None => false
  end.

Definition fromFile (fs : filesystem) (filePath : jsstring)
  : completion SparseMatrix :=
  let attempt :=
    match fs filePath with
    | ReadOk content => parse filePath content
    | ReadError e => Throw e
    end in
  match attempt with
  | Throw error =>
      if code_is ENOENT error then
        Throw (new_Error ("File not found: " ++ filePath))
      else Throw error
  | other => other
  end.

(** [saveToFile] hands [toString()] to [fs.writeFileSync]; the file system
    after the write maps the path to that text. *)
Definition saveToFile (this : SparseMatrix) (fs : filesystem)
  (filePath : jsstring) : filesystem :=
  fun p => if str_eqb p filePath then ReadOk (toString this) else fs p.

(** ** The class invariant *)

(** The key is the text of a coordinate inside the declared dimensions. *)
Definition stored_within (nrows ncols : nat) (k : jsstring) : bool :=
  match key_coords k with
  | Some (r, c) => str_eqb (key r c) k && (r <? nrows)%nat && (c <? ncols)%nat
  | None => false
  end.

(** A [Map] holds a key once. *)
Fixpoint distinct_keys (m : Map) : bool :=
  match m with
  | [] => true
  | (k, _) :: m' =>
      match Map_get k m' with
      | None => distinct_keys m'
      | Some _ => false
      end
  end.

Definition well_formed (m : SparseMatrix) : Prop :=
  distinct_keys (elements m) = true /\
  forallb (fun kv => stored_within (rows m) (cols m) (fst kv)) (elements m) = true.

(** [rows] and [cols] are large enough to contain every stored coordinate:
    every key of the [Map] is the text of a coordinate below them. *)
Definition contains_stored (m : SparseMatrix) : Prop :=
  forall k v,
    In (k, v) (elements m) ->
    exists r c, k = key r c /\ r < rows m /\ c < cols m.


(** A sequence of [setElement] calls on a fresh matrix. *)
Definition set_all (m : SparseMatrix) (calls : list (nat * nat * Z))
  : SparseMatrix :=
  fold_left (fun m '(r, c, v) => setElement m r c v) calls m.

(** [sum_below n f] is the sum of [f 0], ..., [f (n - 1)]. *)
Fixpoint sum_below (n : nat) (f : nat -> Z) : Z :=
  match n with
  | 0 => 0%Z
  | S n' => (sum_below n' f + f n')%Z
  end.

(** ** Objects in a store

    The arithmetic methods receive references.  To state what they do to
    their operands, the objects live in a store and a method maps a store
    to a store.  A [for ... of] loop over a [Map] is live: each step reads
    the entries the object has at that moment, so the loops run on fuel. *)

Definition ref := nat.
Definition store := list SparseMatrix.

Definition deref (h : store) (r : ref) : option SparseMatrix := nth_error h r.

(** [new SparseMatrix(rows, cols)]: a reference that was not in use. *)
Definition alloc (h : store) (m : SparseMatrix) : store * ref :=
  (h ++ [m], List.length h).

Fixpoint assign (h : store) (r : ref) (m : SparseMatrix) : store :=
  match h, r with
  | [], _ => []
  | _ :: h', 0 => m :: h'
  | x :: h', S r' => x :: assign h' r' m
  end.

(** A method call: from a store to a completion and the store it leaves. *)
Definition method (A : Type) : Type := store -> option (completion A * store).

Definition ret {A} (a : A) : method A := fun h => Some (Return a, h).

Definition throw {A} (e : Error) : method A := fun h => Some (Throw e, h).

Definition lift {A} (o : option A) : method A :=
  fun h => Some (modelled o, h).

Definition then_ {A B} (m : method A) (k : A -> method B) : method B :=
  fun h =>
    match m h with
    | None => None
    | Some (Return a, h') => k a h'
    | Some (Throw e, h') => Some (Throw e, h')
    | Some (Unmodelled, h') => Some (Unmodelled, h')
    end.

Notation "x <~ c ;; k" := (then_ c (fun x => k))
  (at level 61, c at next level, right associativity).

(** Reading the fields of the object behind a reference. *)
Definition read (r : ref) : method SparseMatrix :=
  fun h => Some (modelled (deref h r), h).

(** [new SparseMatrix(rows, cols)] *)
Definition new_at (nrows ncols : nat) : method ref :=
  fun h => let (h', r) := alloc h (new_SparseMatrix nrows ncols) in
           Some (Return r, h').

Definition getElement_at (this : ref) (row col : nat) : method Z :=
  m <~ read this ;; ret (getElement m row col).

Definition setElement_at (this : ref) (row col : nat) (value : Z) : method unit :=
  m <~ read this ;;
  fun h => Some (Return tt, assign h this (setElement m row col value)).

(** [for (const [key, value] of src.elements) body], at position [i] of the
    iteration. *)
Fixpoint for_of_at (fuel : nat) (src : ref) (i : nat)
  (body : jsstring -> Z -> method unit) : method unit :=
  match fuel with
  | 0 => fun _ => None
  | S fuel' =>
      m <~ read src ;;
      match nth_error (elements m) i with
      | None => ret tt
      | Some (k, v) => _ <~ body k v ;; for_of_at fuel' src (S i) body
      end
  end.

(** [for (let k = ...; k < other.cols; k++) body]: the bound is read again
    before every iteration. *)
Fixpoint for_k_at (fuel : nat) (other : ref) (k : nat)
  (body : nat -> method unit) : method unit :=
  match fuel with
  | 0 => fun _ => None
  | S fuel' =>
      m <~ read other ;;
      if (k <? cols m)%nat then
        _ <~ body k ;; for_k_at fuel' other (S k) body
      else ret tt
  end.

Definition copy_entry_at (result : ref) (k : jsstring) (value : Z) : method unit :=
  rc <~ lift (key_coords k) ;;
  setElement_at result (fst rc) (snd rc) value.

Definition add_at (fuel : nat) (this other : ref) : method ref :=
  a <~ read this ;;
  b <~ read other ;;
  if negb (rows a =? rows b)%nat || negb (cols a =? cols b)%nat then
    throw (new_Error "Matrices must have the same dimensions for addition.")
  else
    result <~ new_at (rows a) (cols a) ;;
    _ <~ for_of_at fuel this 0 (copy_entry_at result) ;;
    _ <~ for_of_at fuel other 0
           (fun k value =>
              rc <~ lift (key_coords k) ;;
              currentValue <~ getElement_at result (fst rc) (snd rc) ;;
              setElement_at result (fst rc) (snd rc) (currentValue + value)%Z) ;;
    ret result.

Definition subtract_at (fuel : nat) (this other : ref) : method ref :=
  a <~ read this ;;
  b <~ read other ;;
  if negb (rows a =? rows b)%nat || negb (cols a =? cols b)%nat then
    throw (new_Error "Matrices must have the same dimensions for subtraction.")
  else
    result <~ new_at (rows a) (cols a) ;;
    _ <~ for_of_at fuel this 0 (copy_entry_at result) ;;
    _ <~ for_of_at fuel other 0
           (fun k value =>
              rc <~ lift (key_coords k) ;;
              currentValue <~ getElement_at result (fst rc) (snd rc) ;;
              setElement_at result (fst rc) (snd rc) (currentValue - value)%Z) ;;
    ret result.

Definition multiply_at (fuel : nat) (this other : ref) : method ref :=
  a <~ read this ;;
  b <~ read other ;;
  if negb (cols a =? rows b)%nat then
    throw (new_Error
      "Number of columns of first matrix must equal number of rows of second matrix.")
  else
    result <~ new_at (rows a) (cols b) ;;
    _ <~ for_of_at fuel this 0
           (fun key1 value1 =>
              rc <~ lift (key_coords key1) ;;
              for_k_at fuel other 0
                (fun k =>
                   otherValue <~ getElement_at other (snd rc) k ;;
                   if negb (otherValue =? 0)%Z then
                     currentValue <~ getElement_at result (fst rc) k ;;
                     setElement_at result (fst rc) k
                       (currentValue + value1 * otherValue)%Z
                   else ret tt)) ;;
    ret result.

(** ** [performCalculations]

    The driver is an [async] function: it runs in one piece from one
    [await] to the next.  A run is a function of the lines typed at the
    prompts; it yields what was shown, asked and written, in order.  An
    [await] on a question nobody answers never resumes: the run stays
    [Pending] and neither [catch] nor [finally] runs. *)

Inductive event : Type :=
| console_log (text : jsstring)
| console_error (label text : jsstring)
| question (query : jsstring)
| writeFileSync (filePath data : jsstring)
| readline_close.

Record session := mkSession
  { answers : list jsstring; shown : list event; files : filesystem }.

(** How a stretch of the body ends. *)
Inductive step (A : Type) : Type :=
| Normal (a : A)
| Thrown (e : Error)
| Pending
| Outside.
Arguments Normal {A} a.
Arguments Thrown {A} e.
Arguments Pending {A}.
Arguments Outside {A}.

Definition script (A : Type) : Type := session -> session * step A.

Definition and_then {A B} (m : script A) (k : A -> script B) : script B :=
  fun s =>
    match m s with
    | (s', Normal a) => k a s'
    | (s', Thrown e) => (s', Thrown e)
    | (s', Pending) => (s', Pending)
    | (s', Outside) => (s', Outside)
    end.

Notation "x <== c ;; k" := (and_then c (fun x => k))
  (at level 61, c at next level, right associativity).

Definition show (e : event) (s : session) : session :=
  {| answers := answers s; shown := shown s ++ [e]; files := files s |}.

(** [console.log(text)] *)
Definition log (text : jsstring) : script unit :=
  fun s => (show (console_log text) s, Normal tt).

(** [await question(query)]: the query is written at once, the answer is
    the next line typed. *)
Definition ask (query : jsstring) : script jsstring :=
  fun s =>
    match answers s with
    | [] => (show (question query) s, Pending)
    | a :: rest =>
        ({| answers := rest; shown := shown s ++ [question query];
            files := files s |}, Normal a)
    end.

Definition raise {A} (e : Error) : script A := fun s => (s, Thrown e).

Definition completed {A} (c : completion A) : script A :=
  fun s =>
    (s, match c with
        | Return a => Normal a
        | Throw e => Thrown e
        | Unmodelled => Outside
        end).

(** [SparseMatrix.fromFile(filePath)] on the files of the session. *)
Definition load (filePath : jsstring) : script SparseMatrix :=
  fun s => completed (fromFile (files s) filePath) s.

(** What [operations[operationChoice]] evaluates to. *)
Inductive looked_up : Type :=
| own (name method : jsstring)
| inherited
| undefined.

(** The names every plain object inherits from [Object.prototype]; each
    is a function or an object, hence truthy, and has no [method]
    property. *)
Definition Object_prototype_names : list jsstring :=
  [ ("constructor" : jsstring); ("__defineGetter__" : jsstring);
    ("__defineSetter__" : jsstring); ("hasOwnProperty" : jsstring);
    ("__lookupGetter__" : jsstring); ("__lookupSetter__" : jsstring);
    ("isPrototypeOf" : jsstring); ("propertyIsEnumerable" : jsstring);
    ("toString" : jsstring); ("valueOf" : jsstring);
    ("__proto__" : jsstring); ("toLocaleString" : jsstring) ].

Definition operations (choice : jsstring) : looked_up :=
  if str_eqb choice "1" then own "addition" "add"
  else if str_eqb choice "2" then own "subtraction" "subtract"
  else if str_eqb choice "3" then own "multiplication" "multiply"
  else if existsb (str_eqb choice) Object_prototype_names then inherited
  else undefined.

(** [Object.entries(operations)]: integer keys in ascending order. *)
Definition operations_entries : list (jsstring * jsstring) :=
  [ ("1" : jsstring, "addition" : jsstring);
    ("2" : jsstring, "subtraction" : jsstring);
    ("3" : jsstring, "multiplication" : jsstring) ].

(** [matrix1[method](matrix2)] for the methods the table names. *)
Definition call_method (method : jsstring) (this other : SparseMatrix)
  : completion SparseMatrix :=
  if str_eqb method "add" then add this other
  else if str_eqb method "subtract" then subtract this other
  else if str_eqb method "multiply" then multiply this other
  else Unmodelled.

Section Engine.

(** The message of the [TypeError] the engine throws when
    [matrix1[operation.method]] is [undefined] and is called. *)
Variable not_a_function : jsstring.

(** What [fs.writeFileSync] throws for a path, if it fails. *)
Variable write_error : jsstring -> option Error.

(** [resultMatrix.saveToFile(outputPath)] *)
Definition save (m : SparseMatrix) (filePath : jsstring) : script unit :=
  fun s =>
    match write_error filePath with
    | Some e => (s, Thrown e)
    | None =>
        ({| answers := answers s;
            shown := shown s ++ [writeFileSync filePath (toString m)];
            files := saveToFile m (files s) filePath |}, Normal tt)
    end.

Fixpoint log_entries (entries : list (jsstring * jsstring)) : script unit :=
  match entries with
  | [] => fun s => (s, Normal tt)
  | (k, name) :: entries' =>
      _ <== log (k ++ ": " ++ name) ;; log_entries entries'
  end.

(** The [try] block. *)
Definition calculations : script unit :=
  _ <== log "Available operations:" ;;
  _ <== log_entries operations_entries ;;
  matrix1Path <== ask "Enter the file path for the first matrix: " ;;
  matrix1 <== load matrix1Path ;;
  _ <== log ("First matrix loading........" ++ [LF]) ;;
  matrix2Path <== ask "Enter the file path for the second matrix: " ;;
  matrix2 <== load matrix2Path ;;
  _ <== log ("Second matrix loading......." ++ [LF]) ;;
  operationChoice <== ask "Choose an operation (1, 2, or 3): " ;;
  match operations operationChoice with
  | undefined => raise (new_Error "Invalid operation choice.")
  | inherited => raise (new_Error not_a_function)
  | own name method =>
      resultMatrix <== completed (call_method method matrix1 matrix2) ;;
      _ <== log ("Output of " ++ name ++ "........" ++ [LF]) ;;
      outputPath <== ask "Enter the file path to save the result: " ;;
      _ <== save resultMatrix outputPath ;;
      log ("Output file saved to " ++ outputPath)
  end.

(** [try { ... } catch (error) { ... } finally { readline.close() }] *)
Definition performCalculations (typed : list jsstring) (fs : filesystem)
  : session * step unit :=
  let start := {| answers := typed; shown := []; files := fs |} in
  match calculations start with
  | (s, Normal _) => (show readline_close s, Normal tt)
  | (s, Thrown error) =>
      (show readline_close (show (console_error "Error:" (message error)) s),
       Normal tt)
  | (s, Pending) => (s, Pending)
  | (s, Outside) => (s, Outside)
  end.

End Engine.

(** * Notions used in the statements *)

(** ** The thrown errors *)

(** The error [add] throws. *)
Definition add_mismatch : Error :=
  new_Error "Matrices must have the same dimensions for addition.".

(** The error [subtract] throws. *)
Definition subtract_mismatch : Error :=
  new_Error "Matrices must have the same dimensions for subtraction.".

(** The error [multiply] throws. *)
Definition multiply_mismatch : Error :=
  new_Error
    "Number of columns of first matrix must equal number of rows of second matrix.".

(** The error of [fromFile] for a source of fewer than two lines. *)
Definition too_short_error (filePath : jsstring) : Error :=
  new_Error ("File " ++ filePath
             ++ " does not contain enough lines for matrix dimensions").

(** The error of [fromFile] for a header line without a match. *)
Definition dimension_error (filePath : jsstring) : Error :=
  new_Error ("Invalid dimension format in file " ++ filePath
             ++ ". Expected 'rows=X' and 'cols=Y'").

(** The error for the line at index [i], which is line [i + 1] of the file. *)
Definition line_error (filePath : jsstring) (i : nat) (line : jsstring) : Error :=
  new_Error ("Invalid format at line " ++ String_of_nat (i + 1)
             ++ " in file " ++ filePath ++ ": " ++ line).

(** The error of [fromFile] for a source that cannot be located. *)
Definition not_found_error (filePath : jsstring) : Error :=
  new_Error ("File not found: " ++ filePath).

(** ** Lines and patterns, as the specification words them *)

(** The lines [fromFile] works on: split at newlines, each one trimmed. *)
Definition lines_of (content : jsstring) : list jsstring :=
  map trim (split LF content).

(** A line that is exactly [name] followed by one or more digits. *)
Definition exact_dim (name line : jsstring) : bool :=
  match strip_prefix name line with
  | Some (c :: ds) => forallb is_digit (c :: ds)
  | _ => false
  end.

(** A line that holds, somewhere, [name] followed by one or more digits. *)
Definition holds_dim (name line : jsstring) : Prop :=
  exists before ds after,
    ds <> [] /\ forallb is_digit ds = true /\ line = before ++ name ++ ds ++ after.

(** Group 3 of the element pattern: an optional [-] and digits. *)
Definition signed_digits (g : jsstring) : Prop :=
  exists sign d,
    g = sign ++ d /\ (sign = [] \/ sign = ["-"%char]) /\
    d <> [] /\ forallb is_digit d = true.

(** A line that holds, somewhere, a parenthesised triple: digits, a comma,
    white space, digits, a comma, white space, an optional [-] and digits. *)
Definition holds_element (line : jsstring) : Prop :=
  exists before d1 sp1 d2 sp2 g3 after,
    line = before ++ "(" ++ d1 ++ "," ++ sp1 ++ d2 ++ "," ++ sp2 ++ g3
                  ++ ")" ++ after /\
    (d1 <> [] /\ forallb is_digit d1 = true) /\
    forallb is_space sp1 = true /\
    (d2 <> [] /\ forallb is_digit d2 = true) /\
    forallb is_space sp2 = true /\
    signed_digits g3.

(** A line the element loop rejects: not blank and without such a triple. *)
Definition offending (line : jsstring) : Prop :=
  line <> [] /\ ~ holds_element line.

(** Both header lines are present and found by their patterns. *)
Definition headers_parse (content : jsstring) : Prop :=
  2 <= List.length (lines_of content) /\
  holds_dim "rows=" (nth 0 (lines_of content) []) /\
  holds_dim "cols=" (nth 1 (lines_of content) []).

(** ** Texts *)

(** The separator does not occur in the text. *)
Definition free_of (sep : ascii) (s : jsstring) : Prop :=
  forallb (fun c => negb (Ascii.eqb c sep)) s = true.

(** No white space at the start. *)
Definition starts_clean (s : jsstring) : Prop :=
  exists a t, s = a :: t /\ is_space a = false.





(** ** Loop bodies *)

(** The body of the entry loops of [add] and [subtract]: decode the key and
    store [f currentValue value] at its coordinate.  The first loop is the
    case in which [f] returns the value, the second loops have [f] the sum
    and the difference. *)
Definition update_entry (f : Z -> Z -> Z)
  (result : SparseMatrix) (k : jsstring) (value : Z)
  : completion SparseMatrix :=
  '(row, col) <- modelled (key_coords k) ;;
  let currentValue := getElement result row col in
  Return (setElement result row col (f currentValue value)).

(** What an entry loop makes of the element at one coordinate. *)
Definition updated (f : Z -> Z -> Z) (current : Z) (entry : option Z) : Z :=
  match entry with
  | Some v => f current v
  | None => current
  end.

(** The body of the outer loop of [multiply]. *)
Definition multiply_entry (other : SparseMatrix) (result : SparseMatrix)
  (key1 : jsstring) (value1 : Z) : completion SparseMatrix :=
  '(row, col) <- modelled (key_coords key1) ;;
  Return (fold_left (multiply_step other row col value1)
                    (seq 0 (cols other)) result).

(** What one stored entry of the first operand adds at [(r, k)]. *)
Definition entry_term (other : SparseMatrix) (r k : nat) (kv : jsstring * Z) : Z :=
  match key_coords (fst kv) with
  | Some (r', c') =>
      if (r' =? r)%nat then (snd kv * getElement other c' k)%Z else 0%Z
  | None => 0%Z
  end.

(** What the stored entries of the first operand add at [(r, k)]. *)
Fixpoint entries_dot (other : SparseMatrix) (r k : nat) (l : Map) : Z :=
  match l with
  | [] => 0%Z
  | kv :: l' => (entry_term other r k kv + entries_dot other r k l')%Z
  end.

(** The second loop of [add_at] and [subtract_at]. *)
Definition update_entry_at (f : Z -> Z -> Z) (result : ref)
  (k : jsstring) (value : Z) : method unit :=
  rc <~ lift (key_coords k) ;;
  currentValue <~ getElement_at result (fst rc) (snd rc) ;;
  setElement_at result (fst rc) (snd rc) (f currentValue value).

(** The body of the inner loop of [multiply_at]. *)
Definition multiply_step_at (other result : ref) (row col : nat) (value1 : Z)
  (k : nat) : method unit :=
  otherValue <~ getElement_at other col k ;;
  if negb (otherValue =? 0)%Z then
    currentValue <~ getElement_at result row k ;;
    setElement_at result row k (currentValue + value1 * otherValue)%Z
  else ret tt.

(** What a call leaves behind: every object of the store as it was, and
    either a thrown error and the same store, or a reference that was not
    in use, holding the matrix [expected] returns. *)
Definition leaves_operands (call : method ref) (h : store)
  (expected : completion SparseMatrix) : Prop :=
  exists c h',
    call h = Some (c, h') /\
    (forall r m, deref h r = Some m -> deref h' r = Some m) /\
    match c, expected with
    | Return result, Return R => deref h result = None /\ deref h' result = Some R
    | Throw e, Throw e' => e = e' /\ h' = h
    | _, _ => False
    end.

(** ** Sample inputs *)

(** [rows=1, cols=2] with [(0,0,1)] and [(0,1,2)]. *)
Definition sample_row : SparseMatrix :=
  set_all (new_SparseMatrix 1 2) [(0, 0, 1%Z); (0, 1, 2%Z)].


(** [rows=2, cols=2] with [(0,0,1)] and [(1,1,2)]. *)
Definition sample_diagonal : SparseMatrix :=
  set_all (new_SparseMatrix 2 2) [(0, 0, 1%Z); (1, 1, 2%Z)].

(** [rows=2, cols=2] with [(0,0,3)] and [(0,1,4)]. *)
Definition sample_top : SparseMatrix :=
  set_all (new_SparseMatrix 2 2) [(0, 0, 3%Z); (0, 1, 4%Z)].

(** Two header lines with text around the [rows=] and [cols=] fragments. *)
Definition extra_text_source : jsstring :=
  "xrows=2y" ++ [LF] ++ " zcols=3w ".

(** Two header lines of exactly the documented form. *)
Definition plain_source : jsstring :=
  "rows=2" ++ [LF] ++ "cols=3".

(** Two header lines and a third line that is no element. *)
Definition garbage_source : jsstring :=
  "rows=2" ++ [LF] ++ "cols=3" ++ [LF] ++ "garbage".

(** A file system without any file. *)
Definition empty_fs : filesystem :=
  fun p => ReadError {| message := "ENOENT: no such file or directory, open '"
                                   ++ p ++ "'";
                        code := Some ENOENT |}.

(** ** The entries of a sum or difference *)

(** The key of the entry is not in the [Map]. *)
Definition absent_from (acc : Map) (kv : jsstring * Z) : bool :=
  match Map_get (fst kv) acc with
  | None => true
  | Some _ => false
  end.

(** One entry after the loop over [l]: same key, the value combined with
    the value [l] has for that key, if any. *)
Definition update_value (f : Z -> Z -> Z) (l : Map) (kv : jsstring * Z)
  : jsstring * Z :=
  (fst kv, updated f (snd kv) (Map_get (fst kv) l)).

(** The entries after the loop over [l] on a [Map] [acc]: the entries of
    [acc] in their order, updated, then the entries of [l] whose key is new,
    in the order of [l], combined with 0. *)
Definition merged (f : Z -> Z -> Z) (acc l : Map) : Map :=
  map (update_value f l) acc
  ++ map (fun kv => (fst kv, f 0%Z (snd kv))) (filter (absent_from acc) l).

(** ** The text format *)




(** ** Sessions of the driver *)

(** The menu the driver shows first. *)
Definition menu : list event :=
  [ console_log "Available operations:";
    console_log "1: addition";
    console_log "2: subtraction";
    console_log "3: multiplication" ].

(** The four prompts. *)
Definition ask_first : event :=
  question "Enter the file path for the first matrix: ".

Definition ask_second : event :=
  question "Enter the file path for the second matrix: ".

Definition ask_choice : event :=
  question "Choose an operation (1, 2, or 3): ".

Definition ask_output : event :=
  question "Enter the file path to save the result: ".

(** What the driver has shown once both matrices are loaded and the
    choice is asked. *)
Definition loaded_and_asked : list event :=
  menu ++ [ ask_first; console_log ("First matrix loading........" ++ [LF]);
            ask_second; console_log ("Second matrix loading......." ++ [LF]);
            ask_choice ].

(** How the [catch] and [finally] blocks end a session on an error. *)
Definition reported (e : Error) : list event :=
  [ console_error "Error:" (message e); readline_close ].

(** The table of the driver: selector, name shown, method called. *)
Definition dispatch
  : list (jsstring * jsstring
          * (SparseMatrix -> SparseMatrix -> completion SparseMatrix)) :=
  [ ("1" : jsstring, "addition" : jsstring, add);
    ("2" : jsstring, "subtraction" : jsstring, subtract);
    ("3" : jsstring, "multiplication" : jsstring, multiply) ].


(** Three files holding the sample matrices; no other file exists. *)
Definition sample_fs : filesystem :=
  saveToFile sample_row
    (saveToFile sample_top
       (saveToFile sample_diagonal empty_fs "a.txt") "b.txt") "c.txt".

(** The lines typed at the prompts. *)
Definition typed_lines (l : list string) : list jsstring :=
  map list_ascii_of_string l.

(** An engine's wording of the [TypeError]. *)
Definition sample_TypeError : jsstring :=
  "matrix1[operation.method] is not a function".

(** Writes that succeed, and writes that are refused. *)
Definition writable : jsstring -> option Error := fun _ => None.

Definition read_only : jsstring -> option Error :=
  fun p => Some {| message := "EACCES: permission denied, open '" ++ p ++ "'";
                   code := Some ("EACCES" : jsstring) |}.

(** * Properties *)

(** ** Strings and keys *)

Lemma str_eqb_eq a b : str_eqb a b = true <-> a = b.
Proof.
  revert b; induction a as [|x a IH]; intros [|y b]; simpl; split;
    try congruence; try reflexivity.
  - intros H. apply andb_true_iff in H as [Hxy Hab].
    apply Ascii.eqb_eq in Hxy. apply IH in Hab. congruence.
  - intros H. injection H as -> ->.
    rewrite Ascii.eqb_refl. simpl. now apply IH.
Qed.

Lemma str_eqb_refl a : str_eqb a a = true.
Proof. now apply str_eqb_eq. Qed.

Lemma str_eqb_neq a b : a <> b -> str_eqb a b = false.
Proof.
  intros H. destruct (str_eqb a b) eqn:E; [|reflexivity].
  apply str_eqb_eq in E. contradiction.
Qed.

Lemma Map_get_set_same k v m : Map_get k (Map_set k v m) = Some v.
Proof.
  induction m as [|[k' v'] m IH]; simpl.
  - now rewrite str_eqb_refl.
  - destruct (str_eqb k' k) eqn:E; simpl; rewrite E; auto.
Qed.

Lemma Map_get_set_other k k' v m :
  k <> k' -> Map_get k' (Map_set k v m) = Map_get k' m.
Proof.
  intros Hne. induction m as [|[k0 v0] m IH]; simpl.
  - now rewrite str_eqb_neq.
  - destruct (str_eqb k0 k) eqn:E; simpl.
    + apply str_eqb_eq in E. subst k0. now rewrite str_eqb_neq.
    + now rewrite IH.
Qed.

Lemma uint_chars_digits d : forallb is_digit (uint_chars d) = true.
Proof. induction d; simpl; auto. Qed.

Lemma digits_acc_pos d acc :
  digits_acc (uint_chars d) (Npos acc) = Npos (Pos.of_uint_acc d acc).
Proof.
  revert acc. induction d; intros acc; cbn [uint_chars digits_acc Pos.of_uint_acc];
    [reflexivity | rewrite <- IHd; f_equal; cbn [digit_value]; lia ..].
Qed.

Lemma digits_acc_zero d : digits_acc (uint_chars d) 0%N = Pos.of_uint d.
Proof.
  induction d; cbn [uint_chars digits_acc Pos.of_uint];
    [reflexivity | exact IHd | apply digits_acc_pos ..].
Qed.

Lemma uint_chars_nonnil d : d <> Decimal.Nil -> uint_chars d <> [].
Proof. destruct d; simpl; congruence. Qed.

Lemma String_of_N_nonempty n : String_of_N n <> [].
Proof.
  unfold String_of_N. apply uint_chars_nonnil.
  destruct n as [|p]; simpl; [discriminate | apply Unsigned.to_uint_nonnil].
Qed.

Lemma String_of_N_digits n : forallb is_digit (String_of_N n) = true.
Proof. apply uint_chars_digits. Qed.

Lemma digits_value_String_of_N n : digits_value (String_of_N n) = Some n.
Proof.
  unfold digits_value.
  destruct (String_of_N n) as [|c s] eqn:E.
  - now apply String_of_N_nonempty in E.
  - rewrite <- E, String_of_N_digits. unfold String_of_N.
    rewrite digits_acc_zero. f_equal. apply (DecimalN.Unsigned.of_to n).
Qed.

Lemma Number_String_of_nat n : Number (String_of_nat n) = Some n.
Proof.
  unfold Number, String_of_nat. rewrite digits_value_String_of_N. simpl.
  now rewrite Nat2N.id.
Qed.

Lemma digit_classes c :
  is_digit c = true ->
  is_space c = false /\ c <> ","%char /\ c <> "-"%char /\ c <> ")"%char
  /\ c <> "("%char /\ c <> LF.
Proof.
  destruct c as [[] [] [] [] [] [] [] []]; simpl; intros H;
    try discriminate H; repeat split; discriminate.
Qed.





(** *** [split] *)

Lemma split_free sep s : free_of sep s -> split sep s = [s].
Proof.
  unfold free_of. induction s as [|c s IH]; simpl; [reflexivity|].
  intros H. apply andb_true_iff in H as [Hc Hs].
  apply negb_true_iff in Hc. rewrite Hc, (IH Hs). reflexivity.
Qed.

Lemma split_app sep a b :
  free_of sep a -> split sep (a ++ sep :: b) = a :: split sep b.
Proof.
  unfold free_of. induction a as [|c a IH]; simpl.
  - now rewrite Ascii.eqb_refl.
  - intros H. apply andb_true_iff in H as [Hc Ha].
    apply negb_true_iff in Hc. rewrite Hc, (IH Ha). reflexivity.
Qed.

Lemma digits_free sep s :
  is_digit sep = false -> forallb is_digit s = true -> free_of sep s.
Proof.
  unfold free_of. intros Hsep. induction s as [|c s IH]; simpl; [reflexivity|].
  intros H. apply andb_true_iff in H as [Hc Hs]. rewrite (IH Hs), andb_true_r.
  apply negb_true_iff. destruct (Ascii.eqb_spec c sep); [congruence|reflexivity].
Qed.

Lemma String_of_nat_free sep n :
  is_digit sep = false -> free_of sep (String_of_nat n).
Proof. intros H. apply digits_free; [exact H | apply String_of_N_digits]. Qed.

Lemma split_key row col :
  split ","%char (key row col) = [String_of_nat row; String_of_nat col].
Proof.
  unfold key. simpl. rewrite split_app by now apply String_of_nat_free.
  rewrite split_free by now apply String_of_nat_free. reflexivity.
Qed.

Lemma key_coords_key row col : key_coords (key row col) = Some (row, col).
Proof.
  unfold key_coords. rewrite split_key. simpl.
  now rewrite !Number_String_of_nat.
Qed.

Lemma key_inj r c r' c' : key r c = key r' c' -> r = r' /\ c = c'.
Proof.
  intros H. apply (f_equal key_coords) in H.
  rewrite !key_coords_key in H. now injection H.
Qed.

(** ** [getElement] and [setElement] *)

Lemma or_zero_Some v : or_zero (Some v) = v.
Proof. simpl. destruct (Z.eqb_spec v 0); congruence. Qed.

Lemma getElement_setElement_same m r c v :
  getElement (setElement m r c v) r c = v.
Proof.
  unfold getElement, setElement; cbn [elements].
  rewrite Map_get_set_same. apply or_zero_Some.
Qed.

Lemma getElement_setElement_other m r c v r' c' :
  (r', c') <> (r, c) ->
  getElement (setElement m r c v) r' c' = getElement m r' c'.
Proof.
  intros Hne. unfold getElement, setElement; cbn [elements].
  rewrite Map_get_set_other; [reflexivity|].
  intros H. apply key_inj in H as [-> ->]. now apply Hne.
Qed.

Lemma rows_setElement_within m r c v :
  r < rows m -> rows (setElement m r c v) = rows m.
Proof.
  intros H. cbn [setElement rows].
  destruct (Nat.leb_spec (rows m) r); [lia | reflexivity].
Qed.

Lemma cols_setElement_within m r c v :
  c < cols m -> cols (setElement m r c v) = cols m.
Proof.
  intros H. cbn [setElement cols].
  destruct (Nat.leb_spec (cols m) c); [lia | reflexivity].
Qed.

(** ** The class invariant is established and kept *)

Lemma Map_get_app k a b :
  Map_get k (a ++ b) =
  match Map_get k a with Some v => Some v | None => Map_get k b end.
Proof.
  induction a as [|[k' v'] a IH]; simpl; [reflexivity|].
  destruct (str_eqb k' k); auto.
Qed.

Lemma distinct_keys_Map_set k v m :
  distinct_keys m = true -> distinct_keys (Map_set k v m) = true.
Proof.
  induction m as [|[k' v'] m IH]; simpl; [reflexivity|].
  destruct (Map_get k' m) eqn:G; [discriminate|]. intros H.
  destruct (str_eqb k' k) eqn:E; simpl.
  - now rewrite G.
  - rewrite Map_get_set_other, G; [auto|].
    intros ->. now rewrite str_eqb_refl in E.
Qed.

Lemma forallb_Map_set (P : jsstring -> bool) k v m :
  P k = true ->
  forallb (fun kv => P (fst kv)) m = true ->
  forallb (fun kv => P (fst kv)) (Map_set k v m) = true.
Proof.
  intros Hk. induction m as [|[k' v'] m IH]; simpl.
  - now rewrite Hk.
  - intros H. apply andb_true_iff in H as [H1 H2].
    destruct (str_eqb k' k); simpl; rewrite H1; auto.
Qed.

Lemma stored_within_mono n1 c1 n2 c2 k :
  n1 <= n2 -> c1 <= c2 ->
  stored_within n1 c1 k = true -> stored_within n2 c2 k = true.
Proof.
  unfold stored_within. intros Hn Hc.
  destruct (key_coords k) as [[r c]|]; [|discriminate].
  rewrite !andb_true_iff, !Nat.ltb_lt. intuition lia.
Qed.

Lemma stored_within_key n c row col :
  stored_within n c (key row col) = true <-> row < n /\ col < c.
Proof.
  unfold stored_within. rewrite key_coords_key, str_eqb_refl.
  rewrite !andb_true_iff, !Nat.ltb_lt. intuition.
Qed.

Lemma stored_within_inv n c k :
  stored_within n c k = true ->
  exists row col, k = key row col /\ row < n /\ col < c
                  /\ key_coords k = Some (row, col).
Proof.
  unfold stored_within.
  destruct (key_coords k) as [[row col]|]; [|discriminate].
  rewrite !andb_true_iff, !Nat.ltb_lt, str_eqb_eq.
  intros [[H1 H2] H3]. exists row, col. auto.
Qed.

Lemma well_formed_new nrows ncols : well_formed (new_SparseMatrix nrows ncols).
Proof. split; reflexivity. Qed.

Lemma well_formed_setElement m r c v :
  well_formed m -> well_formed (setElement m r c v).
Proof.
  intros [Hd Hw]. split; cbn [setElement elements rows cols].
  - now apply distinct_keys_Map_set.
  - apply (forallb_Map_set
             (stored_within (if (rows m <=? r)%nat then r + 1 else rows m)
                            (if (cols m <=? c)%nat then c + 1 else cols m))).
    + apply stored_within_key.
      destruct (Nat.leb_spec (rows m) r), (Nat.leb_spec (cols m) c); lia.
    + rewrite forallb_forall in *. intros kv Hin.
      eapply stored_within_mono; [| |apply (Hw kv Hin)].
      * destruct (Nat.leb_spec (rows m) r); lia.
      * destruct (Nat.leb_spec (cols m) c); lia.
Qed.

Lemma well_formed_contains m : well_formed m -> contains_stored m.
Proof.
  intros [_ Hw] k v Hin.
  rewrite forallb_forall in Hw. specialize (Hw _ Hin). cbn [fst] in Hw.
  apply stored_within_inv in Hw as (r & c & -> & Hr & Hc & _).
  now exists r, c.
Qed.

(** ** The entry loops of [add] and [subtract]

    Both loops of both methods decode a key and store [f current value]
    at its coordinate; they differ in [f] only. *)

Lemma for_of_update_entry (f : Z -> Z -> Z) l :
  forall R,
    distinct_keys l = true ->
    forallb (fun kv => stored_within (rows R) (cols R) (fst kv)) l = true ->
    exists R',
      for_of l (update_entry f) R = Return R' /\
      rows R' = rows R /\ cols R' = cols R /\
      (forall r c, getElement R' r c
                   = updated f (getElement R r c) (Map_get (key r c) l)) /\
      (well_formed R -> well_formed R').
Proof.
  induction l as [|[k v] l IH]; intros R Hd Hw.
  - exists R. simpl. auto.
  - simpl in Hd, Hw. destruct (Map_get k l) eqn:Hk; [discriminate|].
    apply andb_true_iff in Hw as [Hkw Hw].
    apply stored_within_inv in Hkw as (row & col & -> & Hrow & Hcol & Hkc).
    set (R1 := setElement R row col (f (getElement R row col) v)).
    assert (Hr1 : rows R1 = rows R) by now apply rows_setElement_within.
    assert (Hc1 : cols R1 = cols R) by now apply cols_setElement_within.
    destruct (IH R1 Hd) as (R' & Hrun & Hr & Hc & Hget & Hwf).
    { now rewrite Hr1, Hc1. }
    exists R'. cbn [for_of]. unfold update_entry at 1. rewrite Hkc.
    cbn [modelled bind]. fold R1.
    split; [exact Hrun|]. split; [congruence|]. split; [congruence|]. split.
    + intros r c. rewrite Hget. cbn [Map_get].
      destruct (str_eqb (key row col) (key r c)) eqn:E.
      * apply str_eqb_eq, key_inj in E as [-> ->].
        rewrite Hk. unfold R1. now rewrite getElement_setElement_same.
      * unfold R1. rewrite getElement_setElement_other; [reflexivity|].
        intros H. injection H as -> ->. now rewrite str_eqb_refl in E.
    + intros HR. apply Hwf. now apply well_formed_setElement.
Qed.

Lemma copy_entry_update : copy_entry = update_entry (fun _ v => v).
Proof. reflexivity. Qed.

Lemma getElement_updated_copy m r c :
  getElement m r c = updated (fun _ v => v) 0%Z (Map_get (key r c) (elements m)).
Proof.
  unfold getElement. destruct (Map_get (key r c) (elements m)); simpl; [|reflexivity].
  destruct (Z.eqb_spec z 0); congruence.
Qed.

(** What [add] and [subtract] return on operands of equal dimensions. *)
Lemma entrywise_spec (f : Z -> Z -> Z) (A B : SparseMatrix) :
  (forall a, f a 0%Z = a) ->
  well_formed A -> well_formed B ->
  rows A = rows B -> cols A = cols B ->
  exists R,
    (result <- for_of (elements A) copy_entry
                 (new_SparseMatrix (rows A) (cols A)) ;;
     for_of (elements B) (update_entry f) result) = Return R /\
    rows R = rows A /\ cols R = cols A /\ well_formed R /\
    (forall r c, getElement R r c = f (getElement A r c) (getElement B r c)).
Proof.
  intros Hf0 [HdA HwA] [HdB HwB] Hrows Hcols.
  destruct (for_of_update_entry (fun _ v => v) (elements A)
              (new_SparseMatrix (rows A) (cols A)) HdA HwA)
    as (R1 & Hrun1 & Hr1 & Hc1 & Hget1 & Hwf1).
  cbn [new_SparseMatrix rows cols] in Hr1, Hc1.
  destruct (for_of_update_entry f (elements B) R1 HdB)
    as (R & Hrun & Hr & Hc & Hget & Hwf).
  { now rewrite Hr1, Hc1, Hrows, Hcols. }
  exists R. rewrite copy_entry_update, Hrun1. cbn [bind].
  split; [exact Hrun|]. split; [congruence|]. split; [congruence|]. split.
  - apply Hwf, Hwf1, well_formed_new.
  - intros r c. rewrite Hget, Hget1.
    assert (HA : updated (fun _ v => v)
                   (getElement (new_SparseMatrix (rows A) (cols A)) r c)
                   (Map_get (key r c) (elements A)) = getElement A r c)
      by (symmetry; apply getElement_updated_copy).
    rewrite HA. unfold getElement at 3.
    destruct (Map_get (key r c) (elements B)) as [v|] eqn:E; cbn [updated].
    + now rewrite or_zero_Some.
    + simpl. now rewrite Hf0.
Qed.

(** ** [add] and [subtract] *)

Lemma dims_differ_test (A B : SparseMatrix) :
  negb (rows A =? rows B)%nat || negb (cols A =? cols B)%nat = true
  <-> rows A <> rows B \/ cols A <> cols B.
Proof.
  rewrite orb_true_iff, !negb_true_iff, !Nat.eqb_neq. reflexivity.
Qed.

Lemma add_throws A B :
  rows A <> rows B \/ cols A <> cols B -> add A B = Throw add_mismatch.
Proof.
  intros H. apply dims_differ_test in H. unfold add. now rewrite H.
Qed.

Lemma subtract_throws A B :
  rows A <> rows B \/ cols A <> cols B -> subtract A B = Throw subtract_mismatch.
Proof.
  intros H. apply dims_differ_test in H. unfold subtract. now rewrite H.
Qed.

Lemma dims_agree_test (A B : SparseMatrix) :
  rows A = rows B -> cols A = cols B ->
  negb (rows A =? rows B)%nat || negb (cols A =? cols B)%nat = false.
Proof. intros -> ->. now rewrite !Nat.eqb_refl. Qed.

Lemma add_returns A B :
  well_formed A -> well_formed B -> rows A = rows B -> cols A = cols B ->
  exists R,
    add A B = Return R /\ rows R = rows A /\ cols R = cols A /\ well_formed R /\
    (forall r c, getElement R r c = (getElement A r c + getElement B r c)%Z).
Proof.
  intros HA HB Hr Hc. unfold add. rewrite dims_agree_test by assumption.
  apply (entrywise_spec Z.add A B); auto. intros a. lia.
Qed.

Lemma subtract_returns A B :
  well_formed A -> well_formed B -> rows A = rows B -> cols A = cols B ->
  exists R,
    subtract A B = Return R /\ rows R = rows A /\ cols R = cols A /\
    well_formed R /\
    (forall r c, getElement R r c = (getElement A r c - getElement B r c)%Z).
Proof.
  intros HA HB Hr Hc. unfold subtract. rewrite dims_agree_test by assumption.
  apply (entrywise_spec Z.sub A B); auto. intros a. lia.
Qed.

Lemma getElement_absent m r c :
  Map_get (key r c) (elements m) = None -> getElement m r c = 0%Z.
Proof. unfold getElement. now intros ->. Qed.

(** ** [multiply] *)

Lemma sum_below_ext n f g :
  (forall i, i < n -> f i = g i) -> sum_below n f = sum_below n g.
Proof.
  induction n as [|n IH]; intros H; simpl; [reflexivity|].
  rewrite IH, H by auto. reflexivity.
Qed.

Lemma sum_below_plus n f g :
  sum_below n (fun i => (f i + g i)%Z) = (sum_below n f + sum_below n g)%Z.
Proof. induction n as [|n IH]; simpl; [reflexivity | rewrite IH; lia]. Qed.

Lemma sum_below_single n c x :
  sum_below n (fun i => if (i =? c)%nat then x else 0%Z)
  = if (c <? n)%nat then x else 0%Z.
Proof.
  induction n as [|n IH]; simpl; [reflexivity|]. rewrite IH.
  destruct (Nat.eqb_spec n c), (Nat.ltb_spec c n), (Nat.ltb_spec c (S n));
    try lia.
Qed.

(** The inner loop over [k], run for the first [n] columns. *)
Lemma multiply_row_spec other row col value1 n :
  forall R,
    row < rows R -> n <= cols R ->
    let R' := fold_left (multiply_step other row col value1) (seq 0 n) R in
    rows R' = rows R /\ cols R' = cols R /\
    (forall r k, getElement R' r k
                 = if (r =? row)%nat && (k <? n)%nat
                   then (getElement R r k + value1 * getElement other col k)%Z
                   else getElement R r k) /\
    (well_formed R -> well_formed R').
Proof.
  induction n as [|n IH]; intros R Hrow Hn.
  - simpl. split; [reflexivity|]. split; [reflexivity|]. split; [|auto].
    intros r k. now rewrite andb_false_r.
  - rewrite seq_S, fold_left_app. cbn [fold_left Nat.add].
    destruct (IH R Hrow ltac:(lia)) as (Hr & Hc & Hget & Hwf).
    set (Rn := fold_left (multiply_step other row col value1) (seq 0 n) R) in *.
    unfold multiply_step.
    destruct (Z.eqb_spec (getElement other col n) 0) as [Hz|Hz]; cbn [negb].
    + split; [exact Hr|]. split; [exact Hc|]. split; [|exact Hwf].
      intros r k. rewrite Hget.
      destruct (Nat.eqb_spec r row); cbn [andb]; [|reflexivity].
      destruct (Nat.ltb_spec k n), (Nat.ltb_spec k (S n)); try lia; try reflexivity.
      assert (k = n) by lia. subst k. rewrite Hz. lia.
    + split; [rewrite rows_setElement_within; lia|].
      split; [rewrite cols_setElement_within; lia|]. split.
      * intros r k.
        destruct (Nat.eqb_spec r row) as [->|Hne]; cbn [andb].
        -- destruct (Nat.eq_dec k n) as [->|Hk].
           ++ rewrite getElement_setElement_same, Hget, Nat.eqb_refl.
              cbn [andb].
              destruct (Nat.ltb_spec n n), (Nat.ltb_spec n (S n)); try lia.
           ++ rewrite getElement_setElement_other by congruence.
              rewrite Hget, Nat.eqb_refl. cbn [andb].
              destruct (Nat.ltb_spec k n), (Nat.ltb_spec k (S n)); try lia;
                reflexivity.
        -- rewrite getElement_setElement_other by congruence.
           rewrite Hget. apply Nat.eqb_neq in Hne. now rewrite Hne.
      * intros HR. apply well_formed_setElement. auto.
Qed.

Lemma multiply_loop_spec other ncols l :
  forall R,
    forallb (fun kv => stored_within (rows R) ncols (fst kv)) l = true ->
    cols other <= cols R ->
    exists R',
      for_of l (multiply_entry other) R = Return R' /\
      rows R' = rows R /\ cols R' = cols R /\
      (forall r k, getElement R' r k
                   = if (k <? cols other)%nat
                     then (getElement R r k + entries_dot other r k l)%Z
                     else getElement R r k) /\
      (well_formed R -> well_formed R').
Proof.
  induction l as [|[k0 v] l IH]; intros R Hw Hc.
  - exists R. simpl. split; [reflexivity|]. split; [reflexivity|].
    split; [reflexivity|]. split; [|auto].
    intros r k. destruct (k <? cols other)%nat; [lia | reflexivity].
  - simpl in Hw. apply andb_true_iff in Hw as [Hk0 Hw].
    apply stored_within_inv in Hk0 as (row & col & -> & Hrow & Hcol & Hkc).
    destruct (multiply_row_spec other row col v (cols other) R Hrow Hc)
      as (Hr1 & Hc1 & Hget1 & Hwf1).
    set (R1 := fold_left (multiply_step other row col v)
                         (seq 0 (cols other)) R) in *.
    destruct (IH R1) as (R' & Hrun & Hr & Hc' & Hget & Hwf).
    { now rewrite Hr1. }
    { now rewrite Hc1. }
    exists R'. cbn [for_of]. unfold multiply_entry at 1. rewrite Hkc.
    cbn [modelled bind]. fold R1.
    split; [exact Hrun|]. split; [congruence|]. split; [congruence|]. split.
    + intros r k. rewrite Hget, Hget1. cbn [entries_dot].
      unfold entry_term. cbn [fst snd]. rewrite Hkc.
      rewrite (Nat.eqb_sym row r).
      destruct (k <? cols other)%nat, (r =? row)%nat; cbn [andb]; lia.
    + auto.
Qed.

Lemma entries_dot_sum other r k nrows ncols l :
  distinct_keys l = true ->
  forallb (fun kv => stored_within nrows ncols (fst kv)) l = true ->
  entries_dot other r k l
  = sum_below ncols
      (fun col => (or_zero (Map_get (key r col) l) * getElement other col k)%Z).
Proof.
  induction l as [|[k0 v] l IH]; intros Hd Hw.
  - cbn [entries_dot Map_get or_zero]. clear.
    induction ncols as [|n IHn]; cbn [sum_below]; [reflexivity | rewrite <- IHn; lia].
  - simpl in Hd, Hw. destruct (Map_get k0 l) eqn:Hk0; [discriminate|].
    apply andb_true_iff in Hw as [Hkw Hw].
    apply stored_within_inv in Hkw as (r0 & c0 & -> & Hr0 & Hc0 & Hkc).
    cbn [entries_dot]. unfold entry_term. cbn [fst snd]. rewrite Hkc.
    rewrite (IH Hd Hw).
    destruct (Nat.eqb_spec r0 r) as [->|Hne].
    + rewrite (sum_below_ext ncols
                 (fun col => (or_zero (Map_get (key r col) ((key r c0, v) :: l))
                              * getElement other col k)%Z)
                 (fun col => ((if (col =? c0)%nat
                               then v * getElement other c0 k else 0)
                              + or_zero (Map_get (key r col) l)
                                * getElement other col k)%Z)).
      * rewrite sum_below_plus, sum_below_single.
        apply Nat.ltb_lt in Hc0. now rewrite Hc0.
      * intros col _. cbn [Map_get].
        destruct (Nat.eqb_spec col c0) as [->|Hc].
        -- rewrite str_eqb_refl, Hk0, or_zero_Some. simpl. lia.
        -- rewrite str_eqb_neq; [lia|]. intros H. apply key_inj in H. lia.
    + rewrite Z.add_0_l. apply sum_below_ext. intros col _. cbn [Map_get].
      rewrite str_eqb_neq; [reflexivity|]. intros H. apply key_inj in H. lia.
Qed.

Lemma multiply_throws A B :
  cols A <> rows B -> multiply A B = Throw multiply_mismatch.
Proof.
  intros H. apply Nat.eqb_neq in H. unfold multiply. now rewrite H.
Qed.

Lemma multiply_returns A B :
  well_formed A -> cols A = rows B ->
  exists R,
    multiply A B = Return R /\ rows R = rows A /\ cols R = cols B /\
    well_formed R /\
    (forall row k, k < cols B ->
       getElement R row k
       = sum_below (cols A)
           (fun col => (getElement A row col * getElement B col k)%Z)).
Proof.
  intros [Hd Hw] Hdim. unfold multiply.
  apply Nat.eqb_eq in Hdim. rewrite Hdim. cbn [negb].
  destruct (multiply_loop_spec B (cols A) (elements A)
              (new_SparseMatrix (rows A) (cols B)) Hw (le_n _))
    as (R & Hrun & Hr & Hc & Hget & Hwf).
  exists R. split; [exact Hrun|]. split; [exact Hr|]. split; [exact Hc|].
  split; [apply Hwf, well_formed_new|].
  intros row k Hk. rewrite Hget. apply Nat.ltb_lt in Hk. rewrite Hk.
  rewrite (entries_dot_sum B row k (rows A) (cols A) (elements A) Hd Hw).
  reflexivity.
Qed.

(** ** Arithmetic *)







(** C10: [setElement(r, c, v)] changes what [getElement] returns at
    [(r, c)] only: afterwards [getElement(r, c)] is [v] and every other
    coordinate reads as before; two coordinate pairs with the same
    comma-joined key are the same pair. *)
Theorem setElement_frame (m : SparseMatrix) (r c : nat) (v : Z) :
  getElement (setElement m r c v) r c = v /\
  (forall r' c', (r', c') <> (r, c) ->
     getElement (setElement m r c v) r' c' = getElement m r' c') /\
  (forall r' c', key r' c' = key r c -> (r', c') = (r, c)).
Proof.
  split; [apply getElement_setElement_same|]. split.
  - intros r' c'. apply getElement_setElement_other.
  - intros r' c' H. apply key_inj in H as [-> ->]. reflexivity.
Qed.

Lemma setElement_frame_witness :
  (1, 12) <> (11, 2) /\
  getElement (setElement sample_diagonal 11 2 5%Z) 1 12
  = getElement sample_diagonal 1 12.
Proof.
  split; [discriminate|].
  apply (setElement_frame sample_diagonal 11 2 5%Z). discriminate.
Defined.

(** ** Every reachable matrix satisfies the class invariant *)

Lemma parse_elements_well_formed filePath rest :
  forall i m R,
    well_formed m ->
    parse_elements filePath rest i m = Return R -> well_formed R.
Proof.
  induction rest as [|line rest IH]; intros i m R Hm; cbn [parse_elements].
  - intros H. injection H as <-. exact Hm.
  - destruct line as [|ch line]; [apply IH, Hm|].
    destruct (element_re (ch :: line)) as [[[g1 g2] g3]|]; [|discriminate].
    destruct (coordinate g1) as [row|]; [|discriminate].
    destruct (coordinate g2) as [col|]; [|discriminate].
    destruct (parseInt g3) as [value|]; [|discriminate].
    cbn [modelled bind]. apply IH. now apply well_formed_setElement.
Qed.

Lemma parse_well_formed filePath content R :
  parse filePath content = Return R -> well_formed R.
Proof.
  unfold parse.
  destruct (List.length (map trim (split LF content)) <? 2)%nat; [discriminate|].
  destruct (rows_re _) as [g1|]; [|discriminate].
  destruct (cols_re _) as [g2|]; [|discriminate].
  destruct (coordinate g1) as [totalRows|]; [|discriminate].
  destruct (coordinate g2) as [totalCols|]; [|discriminate].
  cbn [modelled bind]. apply parse_elements_well_formed, well_formed_new.
Qed.

Lemma fromFile_Return fs filePath R :
  fromFile fs filePath = Return R ->
  exists content, fs filePath = ReadOk content /\ parse filePath content = Return R.
Proof.
  unfold fromFile. destruct (fs filePath) as [content|e].
  - intros H. exists content. split; [reflexivity|].
    destruct (parse filePath content) as [m|e|]; try discriminate.
    + exact H.
    + destruct (code_is ENOENT e); discriminate.
  - destruct (code_is ENOENT e); discriminate.
Qed.

Lemma add_Return_dims A B R :
  add A B = Return R -> rows A = rows B /\ cols A = cols B.
Proof.
  intros H. destruct (Nat.eq_dec (rows A) (rows B)) as [Hr|Hr];
    [destruct (Nat.eq_dec (cols A) (cols B)) as [Hc|Hc]; [auto|]|];
    rewrite add_throws in H by auto; discriminate.
Qed.

Lemma subtract_Return_dims A B R :
  subtract A B = Return R -> rows A = rows B /\ cols A = cols B.
Proof.
  intros H. destruct (Nat.eq_dec (rows A) (rows B)) as [Hr|Hr];
    [destruct (Nat.eq_dec (cols A) (cols B)) as [Hc|Hc]; [auto|]|];
    rewrite subtract_throws in H by auto; discriminate.
Qed.

Lemma multiply_Return_dims A B R :
  multiply A B = Return R -> cols A = rows B.
Proof.
  intros H. destruct (Nat.eq_dec (cols A) (rows B)) as [Hr|Hr]; [auto|].
  rewrite multiply_throws in H by auto. discriminate.
Qed.




(** ** The regular expressions *)

Lemma strip_prefix_Some p s r : strip_prefix p s = Some r <-> s = p ++ r.
Proof.
  revert s. induction p as [|a p IH]; intros s; simpl.
  - split; congruence.
  - destruct s as [|b s]; [split; discriminate|].
    destruct (Ascii.eqb_spec a b) as [->|Hne].
    + rewrite IH. split; congruence.
    + split; [discriminate | congruence].
Qed.

Lemma take_drop_While p s : takeWhile p s ++ dropWhile p s = s.
Proof.
  induction s as [|c s IH]; simpl; [reflexivity|].
  destruct (p c); simpl; congruence.
Qed.

Lemma takeWhile_all p s : forallb p (takeWhile p s) = true.
Proof.
  induction s as [|c s IH]; simpl; [reflexivity|].
  destruct (p c) eqn:E; simpl; [now rewrite E|reflexivity].
Qed.

Lemma takeWhile_app p a b :
  forallb p a = true -> takeWhile p (a ++ b) = a ++ takeWhile p b.
Proof.
  induction a as [|c a IH]; simpl; [reflexivity|].
  intros H. apply andb_true_iff in H as [Hc Ha]. now rewrite Hc, IH.
Qed.

Lemma dropWhile_app p a b :
  forallb p a = true -> dropWhile p (a ++ b) = dropWhile p b.
Proof.
  induction a as [|c a IH]; simpl; [reflexivity|].
  intros H. apply andb_true_iff in H as [Hc Ha]. now rewrite Hc, IH.
Qed.

Lemma digits1_Some s g rest :
  digits1 s = Some (g, rest) ->
  g <> [] /\ forallb is_digit g = true /\ s = g ++ rest.
Proof.
  unfold digits1. pose proof (takeWhile_all is_digit s) as Hall.
  pose proof (take_drop_While is_digit s) as Hs.
  destruct (takeWhile is_digit s) as [|c t]; [discriminate|].
  intros H. injection H as <- <-. repeat split; [discriminate | exact Hall | now symmetry].
Qed.

Lemma digits1_app ds rest :
  ds <> [] -> forallb is_digit ds = true ->
  exists more, digits1 (ds ++ rest) = Some (ds ++ more, dropWhile is_digit rest).
Proof.
  intros Hne Hd. exists (takeWhile is_digit rest). unfold digits1.
  rewrite takeWhile_app, dropWhile_app by exact Hd.
  destruct ds as [|c ds]; [contradiction | reflexivity].
Qed.

(** The search for [name(\d+)] succeeds exactly on the lines that hold
    [name] followed by a digit. *)
Lemma dim_search_holds name s :
  (exists g, re_search (dim_at name) s = Some g) <-> holds_dim name s.
Proof.
  split.
  - intros [g Hg]. induction s as [|c s IH]; cbn [re_search] in Hg.
    + destruct (dim_at name []) as [g'|] eqn:E; [|discriminate].
      unfold dim_at in E.
      destruct (strip_prefix name []) as [s1|] eqn:Hp; [|discriminate].
      destruct (digits1 s1) as [[g0 rest]|] eqn:Hd; [|discriminate].
      apply strip_prefix_Some in Hp. apply digits1_Some in Hd as (Hne & Hall & ->).
      exists [], g0, rest. auto.
    + destruct (dim_at name (c :: s)) as [g'|] eqn:E.
      * unfold dim_at in E.
        destruct (strip_prefix name (c :: s)) as [s1|] eqn:Hp; [|discriminate].
        destruct (digits1 s1) as [[g0 rest]|] eqn:Hd; [|discriminate].
        apply strip_prefix_Some in Hp. apply digits1_Some in Hd as (Hne & Hall & ->).
        exists [], g0, rest. auto.
      * destruct (IH Hg) as (before & ds & after & Hne & Hall & ->).
        exists (c :: before), ds, after. auto.
  - intros (before & ds & after & Hne & Hall & ->).
    induction before as [|c before IH].
    + destruct (digits1_app ds after Hne Hall) as [more Hd].
      assert (E : dim_at name ([] ++ name ++ ds ++ after) = Some (ds ++ more)).
      { unfold dim_at. cbn [app].
        rewrite (proj2 (strip_prefix_Some name (name ++ ds ++ after) (ds ++ after)) eq_refl).
        now rewrite Hd. }
      exists (ds ++ more).
      destruct ([] ++ name ++ ds ++ after); cbn [re_search]; now rewrite E.
    + cbn [app re_search].
      destruct (dim_at name (c :: before ++ name ++ ds ++ after)) as [g|];
        [now exists g | exact IH].
Qed.

Lemma dim_search_None name s :
  re_search (dim_at name) s = None <-> ~ holds_dim name s.
Proof.
  rewrite <- dim_search_holds. split.
  - intros H [g Hg]. congruence.
  - intros H. destruct (re_search (dim_at name) s) as [g|]; [|reflexivity].
    exfalso. apply H. now exists g.
Qed.

Lemma dim_search_digits name s g :
  re_search (dim_at name) s = Some g -> g <> [] /\ forallb is_digit g = true.
Proof.
  induction s as [|c s IH]; cbn [re_search]; intros Hg.
  - destruct (dim_at name []) as [g'|] eqn:E; [|discriminate].
    injection Hg as ->. unfold dim_at in E.
    destruct (strip_prefix name []) as [s1|]; [|discriminate].
    destruct (digits1 s1) as [[g0 rest]|] eqn:Hd; [|discriminate].
    injection E as <-. now apply digits1_Some in Hd.
  - destruct (dim_at name (c :: s)) as [g'|] eqn:E; [|auto].
    injection Hg as ->. unfold dim_at in E.
    destruct (strip_prefix name (c :: s)) as [s1|]; [|discriminate].
    destruct (digits1 s1) as [[g0 rest]|] eqn:Hd; [|discriminate].
    injection E as <-. now apply digits1_Some in Hd.
Qed.

Lemma exact_dim_holds name line : exact_dim name line = true -> holds_dim name line.
Proof.
  unfold exact_dim. destruct (strip_prefix name line) as [[|c ds]|] eqn:Hp;
    try discriminate.
  intros Hall. apply strip_prefix_Some in Hp.
  exists [], (c :: ds), []. rewrite app_nil_r. repeat split; auto. discriminate.
Qed.

Lemma parseInt_digits c g :
  is_digit c = true ->
  parseInt (c :: g) = option_map Z.of_N (digits_value (c :: g)).
Proof.
  intros Hc. destruct c as [[] [] [] [] [] [] [] []]; try discriminate Hc;
    reflexivity.
Qed.

Lemma digits_value_digits g :
  g <> [] -> forallb is_digit g = true ->
  digits_value g = Some (digits_acc g 0%N).
Proof.
  intros Hne Hall. destruct g as [|c g]; [contradiction|].
  unfold digits_value. now rewrite Hall.
Qed.

Lemma parseInt_unsigned g :
  g <> [] -> forallb is_digit g = true ->
  parseInt g = Some (Z.of_N (digits_acc g 0%N)).
Proof.
  intros Hne Hall. pose proof (digits_value_digits g Hne Hall) as Hv.
  destruct g as [|c g]; [contradiction|].
  rewrite parseInt_digits, Hv; [reflexivity|].
  simpl in Hall. now apply andb_true_iff in Hall.
Qed.

Lemma coordinate_digits g :
  g <> [] -> forallb is_digit g = true ->
  coordinate g = Some (N.to_nat (digits_acc g 0%N)).
Proof.
  intros Hne Hall. unfold coordinate. rewrite parseInt_unsigned by assumption.
  destruct (Z.ltb_spec (Z.of_N (digits_acc g 0)) 0); [lia|].
  f_equal. lia.
Qed.

Lemma parseInt_signed g : signed_digits g -> exists z, parseInt g = Some z.
Proof.
  intros (sign & d & -> & [-> | ->] & Hne & Hall); cbn [app].
  - eexists. now apply parseInt_unsigned.
  - eexists. unfold parseInt. rewrite digits_value_digits by assumption.
    reflexivity.
Qed.

Lemma opt_minus_spec s sign rest :
  opt_minus s = (sign, rest) ->
  s = sign ++ rest /\ (sign = [] \/ sign = ["-"%char]).
Proof.
  unfold opt_minus. destruct s as [|c s].
  - intros H. injection H as <- <-. auto.
  - destruct c as [[] [] [] [] [] [] [] []];
      intros H; injection H as <- <-; auto.
Qed.

Lemma element_at_groups s g1 g2 g3 :
  element_at s = Some (g1, g2, g3) ->
  (g1 <> [] /\ forallb is_digit g1 = true) /\
  (g2 <> [] /\ forallb is_digit g2 = true) /\
  signed_digits g3.
Proof.
  unfold element_at.
  destruct (expect "(" s) as [s1|]; [|discriminate].
  destruct (digits1 s1) as [[d1 s2]|] eqn:H1; [|discriminate].
  destruct (expect "," s2) as [s3|]; [|discriminate].
  destruct (digits1 (dropWhile is_space s3)) as [[d2 s4]|] eqn:H2; [|discriminate].
  destruct (expect "," s4) as [s5|]; [|discriminate].
  destruct (opt_minus (dropWhile is_space s5)) as [sign s6] eqn:Hs.
  destruct (digits1 s6) as [[d3 s7]|] eqn:H3; [|discriminate].
  destruct (expect ")" s7) as [s8|]; [|discriminate].
  intros H. injection H as <- <- <-.
  apply digits1_Some in H1 as (? & ? & _), H2 as (? & ? & _), H3 as (? & ? & _).
  apply opt_minus_spec in Hs as [_ Hsign].
  repeat split; auto. exists sign, d3. auto.
Qed.

Lemma element_re_groups s g1 g2 g3 :
  element_re s = Some (g1, g2, g3) ->
  (g1 <> [] /\ forallb is_digit g1 = true) /\
  (g2 <> [] /\ forallb is_digit g2 = true) /\
  signed_digits g3.
Proof.
  unfold element_re. induction s as [|c s IH]; cbn [re_search].
  - destruct (element_at []) as [[[a b] d]|] eqn:E; [|discriminate].
    intros H. injection H as <- <- <-. now apply element_at_groups in E.
  - destruct (element_at (c :: s)) as [[[a b] d]|] eqn:E; [|exact IH].
    intros H. injection H as <- <- <-. now apply element_at_groups in E.
Qed.

Lemma digits_starts_clean ds :
  ds <> [] -> forallb is_digit ds = true -> starts_clean ds.
Proof.
  intros Hne Hall. destruct ds as [|c ds]; [contradiction|].
  exists c, ds. split; [reflexivity|]. simpl in Hall.
  apply andb_true_iff in Hall as [Hc _]. now apply digit_classes in Hc.
Qed.

Lemma digits1_exact ds rest :
  ds <> [] -> forallb is_digit ds = true -> takeWhile is_digit rest = [] ->
  digits1 (ds ++ rest) = Some (ds, rest).
Proof.
  intros Hne Hall Hrest. unfold digits1.
  rewrite takeWhile_app, dropWhile_app, Hrest, app_nil_r by exact Hall.
  pose proof (take_drop_While is_digit rest) as H. rewrite Hrest in H.
  cbn [app] in H. rewrite H. destruct ds; [contradiction | reflexivity].
Qed.

Lemma dropWhile_starts_clean s t :
  starts_clean s -> dropWhile is_space (s ++ t) = s ++ t.
Proof. intros (a & u & -> & Ha). cbn [app dropWhile]. now rewrite Ha. Qed.

Lemma opt_minus_digit c s :
  is_digit c = true -> opt_minus (c :: s) = ([], c :: s).
Proof.
  intros Hc. destruct c as [[] [] [] [] [] [] [] []]; try discriminate Hc;
    reflexivity.
Qed.

Lemma signed_starts_clean g : signed_digits g -> starts_clean g.
Proof.
  intros (sign & d & -> & [-> | ->] & Hne & Hall); cbn [app].
  - now apply digits_starts_clean.
  - now exists "-"%char, d.
Qed.

Lemma signed_then_paren g rest :
  signed_digits g ->
  exists sign d,
    g = sign ++ d /\ opt_minus (g ++ ")"%char :: rest) = (sign, d ++ ")"%char :: rest)
    /\ d <> [] /\ forallb is_digit d = true.
Proof.
  intros (sign & d & -> & [-> | ->] & Hne & Hall); cbn [app].
  - exists [], d. repeat split; auto.
    destruct d as [|c d]; [contradiction|]. cbn [app].
    apply opt_minus_digit. simpl in Hall. now apply andb_true_iff in Hall.
  - exists ["-"%char], d. repeat split; auto.
Qed.

Lemma dropWhile_space_run sp s t :
  forallb is_space sp = true -> starts_clean s ->
  dropWhile is_space (sp ++ s ++ t) = s ++ t.
Proof.
  intros Hsp Hs. rewrite dropWhile_app by exact Hsp.
  now apply dropWhile_starts_clean.
Qed.

(** The element pattern at the start of a text of its shape. *)
Lemma element_at_shape d1 sp1 d2 sp2 g3 after :
  d1 <> [] -> forallb is_digit d1 = true -> forallb is_space sp1 = true ->
  d2 <> [] -> forallb is_digit d2 = true -> forallb is_space sp2 = true ->
  signed_digits g3 ->
  element_at ("(" ++ d1 ++ "," ++ sp1 ++ d2 ++ "," ++ sp2 ++ g3 ++ ")" ++ after)
  = Some (d1, d2, g3).
Proof.
  intros Hn1 Ha1 Hs1 Hn2 Ha2 Hs2 Hs. unfold element_at.
  cbn [list_ascii_of_string app expect Ascii.eqb Bool.eqb].
  rewrite (digits1_exact d1) by (auto; reflexivity).
  cbn [expect Ascii.eqb Bool.eqb].
  rewrite dropWhile_space_run by (auto using digits_starts_clean).
  rewrite (digits1_exact d2) by (auto; reflexivity).
  cbn [expect Ascii.eqb Bool.eqb].
  rewrite dropWhile_space_run by (auto using signed_starts_clean).
  destruct (signed_then_paren g3 after Hs) as (sign & d & -> & Hopt & Hnd & Had).
  rewrite Hopt. rewrite (digits1_exact d) by (auto; reflexivity).
  cbn [expect Ascii.eqb Bool.eqb]. reflexivity.
Qed.


Lemma expect_Some c s s' : expect c s = Some s' -> s = c :: s'.
Proof.
  unfold expect. destruct s as [|x s]; [discriminate|].
  destruct (Ascii.eqb_spec x c); [|discriminate]. congruence.
Qed.

Lemma element_at_holds s g :
  element_at s = Some g -> holds_element s.
Proof.
  unfold element_at.
  destruct (expect "(" s) as [s1|] eqn:E1; [|discriminate].
  destruct (digits1 s1) as [[d1 s2]|] eqn:H1; [|discriminate].
  destruct (expect "," s2) as [s3|] eqn:E2; [|discriminate].
  destruct (digits1 (dropWhile is_space s3)) as [[d2 s4]|] eqn:H2; [|discriminate].
  destruct (expect "," s4) as [s5|] eqn:E3; [|discriminate].
  destruct (opt_minus (dropWhile is_space s5)) as [sign s6] eqn:Hs.
  destruct (digits1 s6) as [[d3 s7]|] eqn:H3; [|discriminate].
  destruct (expect ")" s7) as [s8|] eqn:E4; [|discriminate].
  intros _.
  apply expect_Some in E1, E2, E3, E4.
  apply digits1_Some in H1 as (Hn1 & Ha1 & Hs1), H2 as (Hn2 & Ha2 & Hs4),
                         H3 as (Hn3 & Ha3 & Hs6).
  apply opt_minus_spec in Hs as [Hs5 Hsign].
  exists [], d1, (takeWhile is_space s3), d2, (takeWhile is_space s5),
         (sign ++ d3), s8.
  split.
  - subst s s1 s2 s4 s7 s6. cbn [list_ascii_of_string app].
    rewrite <- (take_drop_While is_space s3) at 1. rewrite Hs4.
    rewrite <- (take_drop_While is_space s5) at 1. rewrite Hs5.
    rewrite <- !app_assoc. reflexivity.
  - repeat split; auto using takeWhile_all. exists sign, d3. auto.
Qed.

(** The search for the element pattern succeeds exactly on the lines
    that hold such a triple. *)
Lemma element_search_holds s :
  (exists g, element_re s = Some g) <-> holds_element s.
Proof.
  unfold element_re. split.
  - intros [g Hg]. induction s as [|c s IH]; cbn [re_search] in Hg.
    + destruct (element_at []) as [g'|] eqn:E; [|discriminate].
      now apply element_at_holds in E.
    + destruct (element_at (c :: s)) as [g'|] eqn:E.
      * now apply element_at_holds in E.
      * destruct (IH Hg)
          as (before & d1 & sp1 & d2 & sp2 & g3 & after & -> & Hrest).
        now exists (c :: before), d1, sp1, d2, sp2, g3, after.
  - intros (before & d1 & sp1 & d2 & sp2 & g3 & after & -> &
            [Hn1 Ha1] & Hs1 & [Hn2 Ha2] & Hs2 & Hs).
    pose proof (element_at_shape d1 sp1 d2 sp2 g3 after
                  Hn1 Ha1 Hs1 Hn2 Ha2 Hs2 Hs) as E.
    induction before as [|c before IH].
    + exists (d1, d2, g3). cbn [app] in *.
      destruct ("(" ++ d1 ++ "," ++ sp1 ++ d2 ++ "," ++ sp2 ++ g3 ++ ")" ++ after);
        cbn [re_search]; now rewrite E.
    + cbn [app re_search].
      match goal with
      | |- context [match element_at ?x with _ => _ end] =>
          destruct (element_at x) as [g|]
      end; [now exists g | exact IH].
Qed.

Lemma offending_unmatched line :
  offending line <-> line <> [] /\ element_re line = None.
Proof.
  unfold offending. rewrite <- element_search_holds. split; intros [Hne H].
  - split; [exact Hne|]. destruct (element_re line) as [g|]; [|reflexivity].
    exfalso. apply H. now exists g.
  - split; [exact Hne|]. intros [g Hg]. congruence.
Qed.

(** A matched line is applied through [setElement]; nothing else can
    happen to it. *)
Lemma matched_line_applied line g1 g2 g3 :
  element_re line = Some (g1, g2, g3) ->
  exists row col value,
    coordinate g1 = Some row /\ coordinate g2 = Some col /\
    parseInt g3 = Some value.
Proof.
  intros H. apply element_re_groups in H as ([? ?] & [? ?] & Hs).
  destruct (parseInt_signed g3 Hs) as [value Hv].
  exists (N.to_nat (digits_acc g1 0%N)), (N.to_nat (digits_acc g2 0%N)), value.
  repeat split; auto using coordinate_digits.
Qed.

(** The element loop stops at the first offending line, with the error
    that carries its 1-based number and its text. *)
Lemma parse_elements_first_offending filePath rest :
  forall i m k line,
    nth_error rest k = Some line -> offending line ->
    (forall j l, j < k -> nth_error rest j = Some l -> ~ offending l) ->
    parse_elements filePath rest i m = Throw (line_error filePath (i + k) line).
Proof.
  induction rest as [|l rest IH]; intros i m k line Hk Hoff Hbefore.
  - destruct k; discriminate.
  - destruct k as [|k]; cbn [nth_error] in Hk.
    + injection Hk as ->. apply offending_unmatched in Hoff as [Hne Hre].
      cbn [parse_elements].
      destruct line as [|c line]; [contradiction|].
      rewrite Hre, Nat.add_0_r. reflexivity.
    + cbn [parse_elements].
      assert (Hnext : forall m', parse_elements filePath rest (S i) m'
                                 = Throw (line_error filePath (i + S k) line)).
      { intros m'. rewrite <- Nat.add_succ_comm. apply IH; auto.
        intros j l' Hj Hl'. apply (Hbefore (S j)); [lia | exact Hl']. }
      destruct l as [|c l]; [apply Hnext|].
      destruct (element_re (c :: l)) as [[[g1 g2] g3]|] eqn:Hre.
      * destruct (matched_line_applied _ _ _ _ Hre)
          as (row & col & value & -> & -> & ->).
        cbn [modelled bind]. apply Hnext.
      * exfalso. apply (Hbefore 0 (c :: l)); [lia | reflexivity |].
        apply offending_unmatched. split; [discriminate | exact Hre].
Qed.

(** ** The header of a source *)

Lemma parse_too_short filePath content :
  List.length (lines_of content) < 2 ->
  parse filePath content = Throw (too_short_error filePath).
Proof.
  intros H. unfold parse. fold (lines_of content).
  apply Nat.ltb_lt in H. now rewrite H.
Qed.

Lemma parse_header_missing filePath content :
  2 <= List.length (lines_of content) ->
  rows_re (nth 0 (lines_of content) []) = None \/
  cols_re (nth 1 (lines_of content) []) = None ->
  parse filePath content = Throw (dimension_error filePath).
Proof.
  intros Hlen H. unfold parse. fold (lines_of content).
  destruct (Nat.ltb_spec (List.length (lines_of content)) 2); [lia|].
  destruct H as [-> | ->]; [reflexivity|].
  now destruct (rows_re (nth 0 (lines_of content) [])).
Qed.

Lemma parse_header_found filePath content g1 g2 :
  2 <= List.length (lines_of content) ->
  rows_re (nth 0 (lines_of content) []) = Some g1 ->
  cols_re (nth 1 (lines_of content) []) = Some g2 ->
  parse filePath content
  = parse_elements filePath (skipn 2 (lines_of content)) 2
      (new_SparseMatrix (N.to_nat (digits_acc g1 0%N))
                        (N.to_nat (digits_acc g2 0%N))).
Proof.
  intros Hlen H1 H2. unfold parse. fold (lines_of content).
  destruct (Nat.ltb_spec (List.length (lines_of content)) 2); [lia|].
  rewrite H1, H2.
  apply dim_search_digits in H1 as [? ?], H2 as [? ?].
  rewrite !coordinate_digits by assumption. reflexivity.
Qed.

Lemma parse_elements_Throw filePath rest :
  forall i m e,
    parse_elements filePath rest i m = Throw e ->
    exists k line, e = line_error filePath k line.
Proof.
  induction rest as [|l rest IH]; intros i m e; cbn [parse_elements].
  - discriminate.
  - destruct l as [|c l]; [apply IH|].
    destruct (element_re (c :: l)) as [[[g1 g2] g3]|] eqn:Hre.
    + destruct (matched_line_applied _ _ _ _ Hre)
        as (row & col & value & -> & -> & ->).
      cbn [modelled bind]. apply IH.
    + intros H. injection H as <-. now exists i, (c :: l).
Qed.

Lemma line_error_not_dimension_error filePath k line :
  line_error filePath k line <> dimension_error filePath.
Proof. unfold line_error, dimension_error, new_Error. cbn. discriminate. Qed.

(** C4, as the code has it: for a source of at least two lines, parsing
    throws the dimension-format error exactly when the trimmed line 0 holds
    no [rows=] followed by a digit or the trimmed line 1 holds no [cols=]
    followed by a digit.  Text around such a fragment does not cause
    rejection; in particular lines that are exactly [rows=<digits>] and
    [cols=<digits>] are accepted. *)
Theorem header_lines_searched (filePath content : jsstring) :
  2 <= List.length (lines_of content) ->
  (parse filePath content = Throw (dimension_error filePath)
   <-> (~ holds_dim "rows=" (nth 0 (lines_of content) []) \/
        ~ holds_dim "cols=" (nth 1 (lines_of content) []))) /\
  (exact_dim "rows=" (nth 0 (lines_of content) []) = true ->
   exact_dim "cols=" (nth 1 (lines_of content) []) = true ->
   parse filePath content <> Throw (dimension_error filePath)).
Proof.
  intros Hlen.
  assert (Hfound : holds_dim "rows=" (nth 0 (lines_of content) []) ->
                   holds_dim "cols=" (nth 1 (lines_of content) []) ->
                   parse filePath content <> Throw (dimension_error filePath)).
  { intros H0 H1 Hthrow.
    apply dim_search_holds in H0 as [g1 Hg1], H1 as [g2 Hg2].
    rewrite (parse_header_found filePath content g1 g2 Hlen Hg1 Hg2) in Hthrow.
    apply parse_elements_Throw in Hthrow as (k & line & Hk).
    symmetry in Hk. now apply line_error_not_dimension_error in Hk. }
  split.
  - split.
    + intros Hthrow.
      destruct (rows_re (nth 0 (lines_of content) [])) as [g1|] eqn:H0;
        [|left; now apply dim_search_None].
      destruct (cols_re (nth 1 (lines_of content) [])) as [g2|] eqn:H1;
        [|right; now apply dim_search_None].
      exfalso. apply Hfound; [| |exact Hthrow]; apply dim_search_holds; eauto.
    + intros H. apply parse_header_missing; [exact Hlen|].
      destruct H as [H|H]; [left|right]; now apply dim_search_None.
  - intros H0 H1. apply Hfound; now apply exact_dim_holds.
Qed.

Lemma header_lines_searched_witness :
  2 <= List.length (lines_of plain_source) /\
  exact_dim "rows=" (nth 0 (lines_of plain_source) []) = true /\
  exact_dim "cols=" (nth 1 (lines_of plain_source) []) = true /\
  parse "m.txt" plain_source <> Throw (dimension_error "m.txt").
Proof.
  assert (Hlen : 2 <= List.length (lines_of plain_source)) by (vm_compute; lia).
  split; [exact Hlen|]. split; [reflexivity|]. split; [reflexivity|].
  apply (proj2 (header_lines_searched "m.txt" plain_source Hlen)); reflexivity.
Defined.

(** C4, as the claim words it, fails: a source whose trimmed header lines
    carry text around the [rows=] and [cols=] fragments, so that neither is
    exactly of the form, is parsed into a 2 by 3 matrix. *)
Lemma header_extra_text_accepted :
  2 <= List.length (lines_of extra_text_source) /\
  exact_dim "rows=" (nth 0 (lines_of extra_text_source) []) = false /\
  exact_dim "cols=" (nth 1 (lines_of extra_text_source) []) = false /\
  parse "m.txt" extra_text_source = Return (new_SparseMatrix 2 3).
Proof.
  split; [vm_compute; lia|]. repeat split; vm_compute; reflexivity.
Qed.

(** ** Element lines *)

Lemma offending_dec line : {offending line} + {~ offending line}.
Proof.
  destruct line as [|c line].
  - right. intros [H _]. now apply H.
  - destruct (element_re (c :: line)) as [m|] eqn:E.
    + right. intros H. apply offending_unmatched in H as [_ H]. congruence.
    + left. apply offending_unmatched. split; [discriminate | exact E].
Qed.

Lemma first_offending (lines : list jsstring) :
  forall i line,
    nth_error lines i = Some line -> offending line ->
    exists j l,
      j <= i /\ nth_error lines j = Some l /\ offending l /\
      (forall j' l', j' < j -> nth_error lines j' = Some l' -> ~ offending l').
Proof.
  induction lines as [|l0 lines IH]; intros i line Hi Hoff.
  - destruct i; discriminate.
  - destruct (offending_dec l0) as [H0|H0].
    + exists 0, l0. split; [lia|]. split; [reflexivity|]. split; [exact H0|].
      intros j' l' Hlt. lia.
    + destruct i as [|i]; cbn [nth_error] in Hi.
      * injection Hi as ->. contradiction.
      * destruct (IH i line Hi Hoff) as (j & l & Hj & Hl & Hol & Hmin).
        exists (S j), l. split; [lia|]. split; [exact Hl|]. split; [exact Hol|].
        intros [|j'] l' Hlt Hl'; cbn [nth_error] in Hl'.
        -- injection Hl' as <-. exact H0.
        -- apply (Hmin j' l'); [lia | exact Hl'].
Qed.

Lemma parse_first_offending filePath content i line :
  headers_parse content ->
  nth_error (lines_of content) (2 + i) = Some line -> offending line ->
  (forall j l, j < i -> nth_error (lines_of content) (2 + j) = Some l ->
               ~ offending l) ->
  parse filePath content = Throw (line_error filePath (2 + i) line).
Proof.
  intros (Hlen & H0 & H1) Hi Hoff Hbefore.
  apply dim_search_holds in H0 as [g1 Hg1], H1 as [g2 Hg2].
  rewrite (parse_header_found filePath content g1 g2 Hlen Hg1 Hg2).
  apply parse_elements_first_offending.
  - now rewrite nth_error_skipn.
  - exact Hoff.
  - intros j l Hj Hl. rewrite nth_error_skipn in Hl. eauto.
Qed.

Lemma garbage_offending : offending "garbage".
Proof. apply offending_unmatched. split; [discriminate | reflexivity]. Qed.

(** C5: in a source whose headers parse, a non-blank line after the first
    two that the element pattern does not match makes parsing throw the
    error that carries the 1-based number and the text of the first such
    line, so any such line makes parsing fail with an error of that form;
    blank lines are skipped; a source whose third line is [garbage] fails
    with the error for line 3. *)
Theorem malformed_line_rejected (filePath content : jsstring) :
  headers_parse content ->
  (forall i line,
     nth_error (lines_of content) (2 + i) = Some line -> offending line ->
     (forall j l, j < i -> nth_error (lines_of content) (2 + j) = Some l ->
                  ~ offending l) ->
     parse filePath content = Throw (line_error filePath (2 + i) line)) /\
  (forall i line,
     nth_error (lines_of content) (2 + i) = Some line -> offending line ->
     exists j l,
       j <= i /\ nth_error (lines_of content) (2 + j) = Some l /\ offending l /\
       parse filePath content = Throw (line_error filePath (2 + j) l)) /\
  (forall rest i m,
     parse_elements filePath ([] :: rest) i m
     = parse_elements filePath rest (S i) m) /\
  (nth_error (lines_of content) 2 = Some ("garbage" : jsstring) ->
   parse filePath content
   = Throw (new_Error ("Invalid format at line 3 in file " ++ filePath
                       ++ ": garbage"))).
Proof.
  intros Hhead. split; [|split; [|split]].
  - intros i line. now apply parse_first_offending.
  - intros i line Hi Hoff.
    rewrite <- nth_error_skipn in Hi.
    destruct (first_offending _ i line Hi Hoff) as (j & l & Hj & Hl & Hol & Hmin).
    exists j, l. rewrite nth_error_skipn in Hl.
    split; [exact Hj|]. split; [exact Hl|]. split; [exact Hol|].
    apply parse_first_offending; auto.
    intros j' l' Hlt Hl'. apply (Hmin j' l' Hlt). now rewrite nth_error_skipn.
  - reflexivity.
  - intros H3.
    rewrite (parse_first_offending filePath content 0 "garbage" Hhead H3
               garbage_offending); [|intros j l Hj; lia].
    unfold line_error. f_equal.
Qed.

Lemma malformed_line_rejected_witness :
  headers_parse garbage_source /\
  parse "m.txt" garbage_source
  = Throw (new_Error "Invalid format at line 3 in file m.txt: garbage").
Proof.
  assert (H : headers_parse garbage_source).
  { split; [vm_compute; lia|].
    split; apply dim_search_holds;
      [exists ("2" : jsstring) | exists ("3" : jsstring)]; reflexivity. }
  split; [exact H|].
  destruct (malformed_line_rejected "m.txt" garbage_source H) as (_ & _ & _ & Hg).
  apply Hg. reflexivity.
Defined.

(** ** Errors of [fromFile] are told apart *)

Lemma parse_Throw filePath content e :
  parse filePath content = Throw e ->
  e = too_short_error filePath \/ e = dimension_error filePath \/
  exists k line, e = line_error filePath k line.
Proof.
  unfold parse. fold (lines_of content).
  destruct (List.length (lines_of content) <? 2)%nat.
  { intros H. injection H as <-. now left. }
  destruct (rows_re (nth 0 (lines_of content) [])) as [g1|] eqn:H1.
  2:{ intros H. injection H as <-. right. now left. }
  destruct (cols_re (nth 1 (lines_of content) [])) as [g2|] eqn:H2.
  2:{ intros H. injection H as <-. right. now left. }
  apply dim_search_digits in H1 as [Hn1 Hd1], H2 as [Hn2 Hd2].
  rewrite !coordinate_digits by assumption. cbn [modelled bind].
  intros H. right. right. now apply parse_elements_Throw in H.
Qed.

Lemma too_short_not_not_found filePath :
  too_short_error filePath <> not_found_error filePath.
Proof.
  unfold too_short_error, not_found_error, new_Error. intros H.
  injection H as H. apply (f_equal (@List.length ascii)) in H.
  rewrite !length_app in H. cbn in H. lia.
Qed.

Lemma dimension_not_not_found filePath :
  dimension_error filePath <> not_found_error filePath.
Proof. unfold dimension_error, not_found_error, new_Error. cbn. discriminate. Qed.

Lemma line_not_not_found filePath k line :
  line_error filePath k line <> not_found_error filePath.
Proof. unfold line_error, not_found_error, new_Error. cbn. discriminate. Qed.

(** Message texts are compared for one path: for two different paths the
    text of the too-short error can spell a not-found message. *)
Remark too_short_error_spells_not_found :
  too_short_error "not found: x"
  = not_found_error "x does not contain enough lines for matrix dimensions".
Proof. reflexivity. Qed.

Lemma code_is_spec c e : code_is c e = true <-> code e = Some c.
Proof.
  unfold code_is. destruct (code e) as [c'|]; [|split; discriminate].
  rewrite str_eqb_eq. split; congruence.
Qed.

Lemma parse_Throw_no_code filePath content e :
  parse filePath content = Throw e -> code e = None.
Proof.
  intros H. apply parse_Throw in H as [-> | [-> | (k & line & ->)]]; reflexivity.
Qed.

(** C9: when the source cannot be located ([readFileSync] throws an error
    whose code is [ENOENT]), [fromFile] throws the error whose message is
    [File not found: ] followed by the path, without a code.  That error
    differs from every format error [fromFile] can throw for the same path,
    and from every other read failure: a system error carries a code other
    than [ENOENT] and is thrown on unchanged. *)
Theorem missing_file_not_found (fs : filesystem) (filePath : jsstring) (e : Error) :
  fs filePath = ReadError e -> code e = Some ENOENT ->
  fromFile fs filePath = Throw (not_found_error filePath) /\
  message (not_found_error filePath) = "File not found: " ++ filePath /\
  (forall fs' content e',
     fs' filePath = ReadOk content -> fromFile fs' filePath = Throw e' ->
     e' <> not_found_error filePath) /\
  (forall fs' e' c,
     fs' filePath = ReadError e' -> code e' = Some c -> c <> ENOENT ->
     fromFile fs' filePath = Throw e' /\ e' <> not_found_error filePath).
Proof.
  intros Hfs Hcode. split; [|split; [|split]].
  - unfold fromFile. rewrite Hfs.
    apply code_is_spec in Hcode. now rewrite Hcode.
  - reflexivity.
  - intros fs' content e' Hfs'. unfold fromFile. rewrite Hfs'.
    destruct (parse filePath content) as [m|e0|] eqn:Hp; try discriminate.
    pose proof (parse_Throw_no_code _ _ _ Hp) as Hno.
    assert (Hc : code_is ENOENT e0 = false)
      by (unfold code_is; now rewrite Hno).
    rewrite Hc. intros H. injection H as <-.
    apply parse_Throw in Hp as [-> | [-> | (k & line & ->)]].
    + apply too_short_not_not_found.
    + apply dimension_not_not_found.
    + apply line_not_not_found.
  - intros fs' e' c Hfs' Hc Hne. unfold fromFile. rewrite Hfs'.
    assert (Hcode' : code_is ENOENT e' = false).
    { destruct (code_is ENOENT e') eqn:E; [|reflexivity].
      apply code_is_spec in E. congruence. }
    rewrite Hcode'. split; [reflexivity|].
    intros ->. discriminate.
Qed.

Lemma missing_file_not_found_witness :
  empty_fs "a.txt" = ReadError {| message := "ENOENT: no such file or directory, open 'a.txt'";
                                  code := Some ENOENT |} /\
  fromFile empty_fs "a.txt" = Throw (new_Error "File not found: a.txt").
Proof.
  split; [reflexivity|].
  apply (missing_file_not_found empty_fs "a.txt" _ eq_refl eq_refl).
Defined.

(** ** Serialization and parsing are inverse *)



















Lemma Map_set_fresh k v m : Map_get k m = None -> Map_set k v m = m ++ [(k, v)].
Proof.
  induction m as [|[k' v'] m IH]; simpl; [reflexivity|].
  destruct (str_eqb k' k); [discriminate|]. intros H. now rewrite IH.
Qed.















(** ** The arithmetic methods on a store *)

Lemma deref_app_old h R r m : deref h r = Some m -> deref (h ++ [R]) r = Some m.
Proof.
  unfold deref. intros H. rewrite nth_error_app1; [exact H|].
  apply nth_error_Some. congruence.
Qed.

Lemma deref_app_new h R : deref (h ++ [R]) (List.length h) = Some R.
Proof.
  unfold deref. rewrite nth_error_app2 by lia. now rewrite Nat.sub_diag.
Qed.

Lemma deref_fresh h : deref h (List.length h) = None.
Proof. unfold deref. apply nth_error_None. lia. Qed.

Lemma assign_app_new h R R' : assign (h ++ [R]) (List.length h) R' = h ++ [R'].
Proof. induction h as [|x h IH]; simpl; [reflexivity | now rewrite IH]. Qed.

Lemma setElement_at_new h R row col value :
  setElement_at (List.length h) row col value (h ++ [R])
  = Some (Return tt, h ++ [setElement R row col value]).
Proof.
  unfold setElement_at, then_, read. rewrite deref_app_new. cbn [modelled].
  now rewrite assign_app_new.
Qed.

Lemma getElement_at_new h R row col :
  getElement_at (List.length h) row col (h ++ [R])
  = Some (Return (getElement R row col), h ++ [R]).
Proof.
  unfold getElement_at, then_, read, ret. now rewrite deref_app_new.
Qed.

Lemma getElement_at_old h R other B row col :
  deref h other = Some B ->
  getElement_at other row col (h ++ [R])
  = Some (Return (getElement B row col), h ++ [R]).
Proof.
  intros H. unfold getElement_at, then_, read, ret.
  now rewrite (deref_app_old h R other B H).
Qed.

Lemma skipn_nth_error {A} (l : list A) i x :
  nth_error l i = Some x -> skipn i l = x :: skipn (S i) l.
Proof.
  revert i. induction l as [|y l IH]; intros [|i]; simpl; try discriminate.
  - congruence.
  - intros H. now apply IH.
Qed.

(** A live loop over an operand agrees with the loop over its entries as
    long as the body works on the fresh object only. *)
Lemma for_of_at_pure
  (body_at : jsstring -> Z -> method unit)
  (body : SparseMatrix -> jsstring -> Z -> completion SparseMatrix)
  (h : store) (src : ref) (A : SparseMatrix) :
  deref h src = Some A ->
  (forall R k v R', body R k v = Return R' ->
     body_at k v (h ++ [R]) = Some (Return tt, h ++ [R'])) ->
  forall fuel i R R',
    List.length (elements A) - i < fuel ->
    for_of (skipn i (elements A)) body R = Return R' ->
    for_of_at fuel src i body_at (h ++ [R]) = Some (Return tt, h ++ [R']).
Proof.
  intros Hsrc Hbody. induction fuel as [|fuel IH]; intros i R R' Hfuel Hrun; [lia|].
  cbn [for_of_at]. unfold then_ at 1. unfold read.
  rewrite (deref_app_old h R src A Hsrc). cbn [modelled].
  destruct (nth_error (elements A) i) as [[k v]|] eqn:Hi.
  - rewrite (skipn_nth_error _ _ _ Hi) in Hrun. cbn [for_of] in Hrun.
    destruct (body R k v) as [R1| |] eqn:Hb; try discriminate.
    cbn [bind] in Hrun. unfold then_. rewrite (Hbody R k v R1 Hb).
    apply IH; [|exact Hrun].
    assert (i < List.length (elements A)) by (apply nth_error_Some; congruence).
    lia.
  - apply nth_error_None in Hi. rewrite skipn_all2 in Hrun by exact Hi.
    cbn [for_of] in Hrun. injection Hrun as <-. reflexivity.
Qed.

Lemma for_k_at_pure
  (body_at : nat -> method unit) (step : SparseMatrix -> nat -> SparseMatrix)
  (h : store) (other : ref) (B : SparseMatrix) :
  deref h other = Some B ->
  (forall R k, body_at k (h ++ [R]) = Some (Return tt, h ++ [step R k])) ->
  forall fuel k R,
    cols B - k < fuel ->
    for_k_at fuel other k body_at (h ++ [R])
    = Some (Return tt, h ++ [fold_left step (seq k (cols B - k)) R]).
Proof.
  intros Hother Hbody. induction fuel as [|fuel IH]; intros k R Hfuel; [lia|].
  cbn [for_k_at]. unfold then_ at 1. unfold read.
  rewrite (deref_app_old h R other B Hother). cbn [modelled].
  destruct (Nat.ltb_spec k (cols B)) as [Hlt|Hge].
  - unfold then_. rewrite Hbody, IH by lia.
    replace (cols B - k) with (S (cols B - S k)) by lia.
    reflexivity.
  - replace (cols B - k) with 0 by lia. reflexivity.
Qed.

(** One [read] of an operand whose object is known. *)
Ltac read_operand H :=
  unfold then_ at 1; unfold read at 1; rewrite H; cbn [modelled].

Lemma copy_entry_at_pure h R k v R' :
  copy_entry R k v = Return R' ->
  copy_entry_at (List.length h) k v (h ++ [R]) = Some (Return tt, h ++ [R']).
Proof.
  unfold copy_entry, copy_entry_at, then_, lift.
  destruct (key_coords k) as [[row col]|]; cbn [modelled bind fst snd]; [|discriminate].
  intros H. injection H as <-. apply setElement_at_new.
Qed.

Lemma update_entry_at_pure f h R k v R' :
  update_entry f R k v = Return R' ->
  update_entry_at f (List.length h) k v (h ++ [R]) = Some (Return tt, h ++ [R']).
Proof.
  unfold update_entry, update_entry_at, then_ at 1, lift.
  destruct (key_coords k) as [[row col]|]; cbn [modelled bind fst snd]; [|discriminate].
  intros H. injection H as <-. unfold then_.
  rewrite getElement_at_new. apply setElement_at_new.
Qed.

Lemma entrywise_at_returns (f : Z -> Z -> Z) fuel h this other A B R1 R :
  deref h this = Some A -> deref h other = Some B ->
  List.length (elements A) < fuel -> List.length (elements B) < fuel ->
  for_of (elements A) copy_entry (new_SparseMatrix (rows A) (cols A)) = Return R1 ->
  for_of (elements B) (update_entry f) R1 = Return R ->
  (result <~ new_at (rows A) (cols A) ;;
   _ <~ for_of_at fuel this 0 (copy_entry_at result) ;;
   _ <~ for_of_at fuel other 0 (update_entry_at f result) ;;
   ret result) h
  = Some (Return (List.length h), h ++ [R]).
Proof.
  intros Hthis Hother HfA HfB Hrun1 Hrun2.
  unfold then_ at 1. unfold new_at, alloc. unfold then_ at 1.
  rewrite (for_of_at_pure (copy_entry_at (List.length h)) copy_entry h this A
             Hthis (copy_entry_at_pure h) fuel 0 _ R1);
    [|lia|exact Hrun1].
  unfold then_ at 1.
  rewrite (for_of_at_pure (update_entry_at f (List.length h)) (update_entry f)
             h other B Hother (update_entry_at_pure f h) fuel 0 R1 R);
    [reflexivity|lia|exact Hrun2].
Qed.

Lemma add_at_returns fuel h this other A B R :
  deref h this = Some A -> deref h other = Some B ->
  List.length (elements A) < fuel -> List.length (elements B) < fuel ->
  add A B = Return R ->
  add_at fuel this other h = Some (Return (List.length h), h ++ [R]).
Proof.
  intros Hthis Hother HfA HfB Hadd.
  destruct (add_Return_dims _ _ _ Hadd) as [Hr Hc].
  unfold add in Hadd. rewrite dims_agree_test in Hadd by assumption.
  destruct (for_of (elements A) copy_entry (new_SparseMatrix (rows A) (cols A)))
    as [R1| |] eqn:Hrun1; try discriminate.
  cbn [bind] in Hadd.
  unfold add_at. read_operand Hthis. read_operand Hother.
  rewrite dims_agree_test by assumption.
  apply (entrywise_at_returns Z.add fuel h this other A B R1 R); assumption.
Qed.

Lemma subtract_at_returns fuel h this other A B R :
  deref h this = Some A -> deref h other = Some B ->
  List.length (elements A) < fuel -> List.length (elements B) < fuel ->
  subtract A B = Return R ->
  subtract_at fuel this other h = Some (Return (List.length h), h ++ [R]).
Proof.
  intros Hthis Hother HfA HfB Hsub.
  destruct (subtract_Return_dims _ _ _ Hsub) as [Hr Hc].
  unfold subtract in Hsub. rewrite dims_agree_test in Hsub by assumption.
  destruct (for_of (elements A) copy_entry (new_SparseMatrix (rows A) (cols A)))
    as [R1| |] eqn:Hrun1; try discriminate.
  cbn [bind] in Hsub.
  unfold subtract_at. read_operand Hthis. read_operand Hother.
  rewrite dims_agree_test by assumption.
  apply (entrywise_at_returns Z.sub fuel h this other A B R1 R); assumption.
Qed.

Lemma add_at_throws fuel h this other A B :
  deref h this = Some A -> deref h other = Some B ->
  rows A <> rows B \/ cols A <> cols B ->
  add_at fuel this other h = Some (Throw add_mismatch, h).
Proof.
  intros Hthis Hother Hne. apply dims_differ_test in Hne.
  unfold add_at. read_operand Hthis. read_operand Hother.
  now rewrite Hne.
Qed.

Lemma subtract_at_throws fuel h this other A B :
  deref h this = Some A -> deref h other = Some B ->
  rows A <> rows B \/ cols A <> cols B ->
  subtract_at fuel this other h = Some (Throw subtract_mismatch, h).
Proof.
  intros Hthis Hother Hne. apply dims_differ_test in Hne.
  unfold subtract_at. read_operand Hthis. read_operand Hother.
  now rewrite Hne.
Qed.

Lemma multiply_step_at_pure h other B row col value1 R k :
  deref h other = Some B ->
  multiply_step_at other (List.length h) row col value1 k (h ++ [R])
  = Some (Return tt, h ++ [multiply_step B row col value1 R k]).
Proof.
  intros Hother. unfold multiply_step_at, multiply_step, then_ at 1.
  rewrite (getElement_at_old h R other B col k Hother).
  destruct (negb (getElement B col k =? 0)%Z); [|reflexivity].
  unfold then_. rewrite getElement_at_new. apply setElement_at_new.
Qed.

Lemma multiply_entry_at_pure fuel h other B R key1 value1 R' :
  deref h other = Some B -> cols B < fuel ->
  multiply_entry B R key1 value1 = Return R' ->
  (rc <~ lift (key_coords key1) ;;
   for_k_at fuel other 0
     (multiply_step_at other (List.length h) (fst rc) (snd rc) value1))
    (h ++ [R])
  = Some (Return tt, h ++ [R']).
Proof.
  intros Hother Hfuel. unfold multiply_entry, then_ at 1, lift.
  destruct (key_coords key1) as [[row col]|]; cbn [modelled bind fst snd];
    [|discriminate].
  intros H. injection H as <-.
  rewrite (for_k_at_pure
             (multiply_step_at other (List.length h) row col value1)
             (multiply_step B row col value1) h other B Hother
             (fun R k => multiply_step_at_pure h other B row col value1 R k Hother)
             fuel 0 R) by lia.
  now rewrite Nat.sub_0_r.
Qed.

Lemma multiply_at_returns fuel h this other A B R :
  deref h this = Some A -> deref h other = Some B ->
  List.length (elements A) < fuel -> cols B < fuel ->
  multiply A B = Return R ->
  multiply_at fuel this other h = Some (Return (List.length h), h ++ [R]).
Proof.
  intros Hthis Hother HfA HfB Hmul.
  pose proof (multiply_Return_dims _ _ _ Hmul) as Hd.
  unfold multiply in Hmul. apply Nat.eqb_eq in Hd. rewrite Hd in Hmul.
  cbn [negb] in Hmul.
  unfold multiply_at. read_operand Hthis. read_operand Hother.
  rewrite Hd. cbn [negb].
  unfold then_ at 1. unfold new_at, alloc. unfold then_ at 1.
  rewrite (for_of_at_pure
             (fun key1 value1 =>
                rc <~ lift (key_coords key1) ;;
                for_k_at fuel other 0
                  (multiply_step_at other (List.length h) (fst rc) (snd rc) value1))
             (multiply_entry B) h this A Hthis
             (fun R0 k v R' => multiply_entry_at_pure fuel h other B R0 k v R'
                                 Hother HfB)
             fuel 0 _ R);
    [reflexivity|lia|exact Hmul].
Qed.

Lemma multiply_at_throws fuel h this other A B :
  deref h this = Some A -> deref h other = Some B ->
  cols A <> rows B ->
  multiply_at fuel this other h = Some (Throw multiply_mismatch, h).
Proof.
  intros Hthis Hother Hne. apply Nat.eqb_neq in Hne.
  unfold multiply_at. read_operand Hthis. read_operand Hother.
  now rewrite Hne.
Qed.

Lemma leaves_operands_Return call h R :
  call h = Some (Return (List.length h), h ++ [R]) ->
  leaves_operands call h (Return R).
Proof.
  intros H. exists (Return (List.length h)), (h ++ [R]).
  split; [exact H|]. split; [intros r m; apply deref_app_old|].
  split; [apply deref_fresh | apply deref_app_new].
Qed.

Lemma leaves_operands_Throw call h e :
  call h = Some (Throw e, h) -> leaves_operands call h (Throw e).
Proof. intros H. exists (Throw e), h. auto. Qed.

(** C8: [add], [subtract] and [multiply], called on references to matrices
    that satisfy the class invariant (possibly the same reference twice),
    return with enough fuel, and leave every object of the store, hence
    both operands with their rows, cols and elements, as before the call;
    a failing call leaves the store as it was, a successful one returns a
    reference that was not in use before. *)
Theorem arithmetic_leaves_operands
  (fuel : nat) (h : store) (this other : ref) (A B : SparseMatrix) :
  deref h this = Some A -> deref h other = Some B ->
  well_formed A -> well_formed B ->
  List.length (elements A) < fuel -> List.length (elements B) < fuel ->
  cols B < fuel ->
  leaves_operands (add_at fuel this other) h (add A B) /\
  leaves_operands (subtract_at fuel this other) h (subtract A B) /\
  leaves_operands (multiply_at fuel this other) h (multiply A B).
Proof.
  intros Hthis Hother HA HB HfA HfB Hfc. split; [|split].
  - destruct (Nat.eq_dec (rows A) (rows B)) as [Hr|Hr];
      [destruct (Nat.eq_dec (cols A) (cols B)) as [Hc|Hc]|].
    + destruct (add_returns A B HA HB Hr Hc) as (R & HR & _). rewrite HR.
      apply leaves_operands_Return. now apply (add_at_returns fuel h this other A B).
    + rewrite add_throws by auto. apply leaves_operands_Throw.
      apply (add_at_throws fuel h this other A B); auto.
    + rewrite add_throws by auto. apply leaves_operands_Throw.
      apply (add_at_throws fuel h this other A B); auto.
  - destruct (Nat.eq_dec (rows A) (rows B)) as [Hr|Hr];
      [destruct (Nat.eq_dec (cols A) (cols B)) as [Hc|Hc]|].
    + destruct (subtract_returns A B HA HB Hr Hc) as (R & HR & _). rewrite HR.
      apply leaves_operands_Return.
      now apply (subtract_at_returns fuel h this other A B).
    + rewrite subtract_throws by auto. apply leaves_operands_Throw.
      apply (subtract_at_throws fuel h this other A B); auto.
    + rewrite subtract_throws by auto. apply leaves_operands_Throw.
      apply (subtract_at_throws fuel h this other A B); auto.
  - destruct (Nat.eq_dec (cols A) (rows B)) as [Hd|Hd].
    + destruct (multiply_returns A B HA Hd) as (R & HR & _). rewrite HR.
      apply leaves_operands_Return.
      now apply (multiply_at_returns fuel h this other A B).
    + rewrite multiply_throws by auto. apply leaves_operands_Throw.
      apply (multiply_at_throws fuel h this other A B); auto.
Qed.

Lemma arithmetic_leaves_operands_witness :
  let h := [sample_diagonal; sample_top; sample_row] in
  deref h 0 = Some sample_diagonal /\ deref h 1 = Some sample_top /\
  well_formed sample_diagonal /\ well_formed sample_top /\
  List.length (elements sample_diagonal) < 5 /\
  List.length (elements sample_top) < 5 /\ cols sample_top < 5 /\
  leaves_operands (add_at 5 0 1) h (add sample_diagonal sample_top) /\
  leaves_operands (subtract_at 5 0 1) h (subtract sample_diagonal sample_top) /\
  leaves_operands (multiply_at 5 0 1) h (multiply sample_diagonal sample_top).
Proof.
  intros h.
  assert (HA : well_formed sample_diagonal) by (split; reflexivity).
  assert (HB : well_formed sample_top) by (split; reflexivity).
  split; [reflexivity|]. split; [reflexivity|].
  split; [exact HA|]. split; [exact HB|].
  split; [vm_compute; lia|]. split; [vm_compute; lia|]. split; [vm_compute; lia|].
  apply (arithmetic_leaves_operands 5 h 0 1 sample_diagonal sample_top);
    try reflexivity; try assumption; vm_compute; lia.
Defined.

(** * Further properties of the class *)

(** ** [subtract] and the algebra of [add] *)



(** X2: for operands of equal declared dimensions, [A.add(B)] and
    [B.add(A)] both return, with the same declared dimensions and the same
    element at every coordinate. *)
Theorem add_commutes (A B : SparseMatrix) :
  well_formed A -> well_formed B ->
  rows A = rows B -> cols A = cols B ->
  exists R1 R2,
    add A B = Return R1 /\ add B A = Return R2 /\
    rows R1 = rows R2 /\ cols R1 = cols R2 /\
    forall r c, getElement R1 r c = getElement R2 r c.
Proof.
  intros HA HB Hr Hc.
  destruct (add_returns A B HA HB Hr Hc) as (R1 & H1 & Hr1 & Hc1 & _ & Hg1).
  destruct (add_returns B A HB HA (eq_sym Hr) (eq_sym Hc))
    as (R2 & H2 & Hr2 & Hc2 & _ & Hg2).
  exists R1, R2. split; [exact H1|]. split; [exact H2|].
  split; [congruence|]. split; [congruence|].
  intros r c. rewrite Hg1, Hg2. lia.
Qed.

Lemma add_commutes_witness :
  well_formed sample_diagonal /\ well_formed sample_top /\
  rows sample_diagonal = rows sample_top /\
  cols sample_diagonal = cols sample_top /\
  exists R1 R2,
    add sample_diagonal sample_top = Return R1 /\
    add sample_top sample_diagonal = Return R2 /\
    rows R1 = rows R2 /\ cols R1 = cols R2 /\
    forall r c, getElement R1 r c = getElement R2 r c.
Proof.
  split; [split; reflexivity|]. split; [split; reflexivity|].
  split; [reflexivity|]. split; [reflexivity|].
  apply add_commutes; (split; reflexivity) || reflexivity.
Defined.

(** ** Reading and writing elements *)

Lemma Map_get_In k v m : Map_get k m = Some v -> In (k, v) m.
Proof.
  induction m as [|[k' v'] m IH]; simpl; [discriminate|].
  destruct (str_eqb k' k) eqn:E; intros H.
  - apply str_eqb_eq in E. left. congruence.
  - right. auto.
Qed.

(** X4: [getElement] checks no bounds: on a matrix that satisfies the class
    invariant, a coordinate at or beyond the declared rows or cols reads
    as 0. *)
Theorem getElement_outside (m : SparseMatrix) (r c : nat) :
  well_formed m -> rows m <= r \/ cols m <= c -> getElement m r c = 0%Z.
Proof.
  intros Hm Hout. apply getElement_absent.
  destruct (Map_get (key r c) (elements m)) as [v|] eqn:E; [|reflexivity].
  apply Map_get_In in E.
  destruct (well_formed_contains m Hm _ _ E) as (r' & c' & Hk & Hr & Hc).
  apply key_inj in Hk as [-> ->]. lia.
Qed.

Lemma getElement_outside_witness :
  well_formed sample_diagonal /\
  (rows sample_diagonal <= 7 \/ cols sample_diagonal <= 0) /\
  getElement sample_diagonal 7 0 = 0%Z.
Proof.
  assert (H : well_formed sample_diagonal) by (split; reflexivity).
  assert (Hout : rows sample_diagonal <= 7 \/ cols sample_diagonal <= 0)
    by (left; vm_compute; lia).
  split; [exact H|]. split; [exact Hout|].
  exact (getElement_outside sample_diagonal 7 0 H Hout).
Defined.

Lemma Map_set_set k v w m : Map_set k w (Map_set k v m) = Map_set k w m.
Proof.
  induction m as [|[k' v'] m IH]; simpl.
  - now rewrite str_eqb_refl.
  - destruct (str_eqb k' k) eqn:E; simpl; rewrite E; [reflexivity|].
    now rewrite IH.
Qed.

(** X5: a second [setElement] at the same coordinate replaces the first:
    the matrix is the one the second call alone would have made, with the
    same declared dimensions and the entry at the same place. *)
Theorem setElement_overwrites (m : SparseMatrix) (r c : nat) (v w : Z) :
  setElement (setElement m r c v) r c w = setElement m r c w.
Proof.
  unfold setElement. cbn [rows cols elements]. rewrite Map_set_set.
  f_equal.
  - destruct (Nat.leb_spec (rows m) r) as [H|H].
    + destruct (Nat.leb_spec (r + 1) r); [lia | reflexivity].
    + destruct (Nat.leb_spec (rows m) r); [lia | reflexivity].
  - destruct (Nat.leb_spec (cols m) c) as [H|H].
    + destruct (Nat.leb_spec (c + 1) c); [lia | reflexivity].
    + destruct (Nat.leb_spec (cols m) c); [lia | reflexivity].
Qed.


(** ** The entries [add] and [subtract] store, and their order *)

Lemma Map_get_None_In k m kv : Map_get k m = None -> In kv m -> fst kv <> k.
Proof.
  induction m as [|[k' v'] m IH]; simpl; [contradiction|].
  destruct (str_eqb k' k) eqn:E; [discriminate|].
  intros Hn [<-|Hin]; [|auto].
  cbn [fst]. intros ->. now rewrite str_eqb_refl in E.
Qed.

Lemma In_Map_get k v m :
  distinct_keys m = true -> In (k, v) m -> Map_get k m = Some v.
Proof.
  induction m as [|[k' v'] m IH]; simpl; [contradiction|].
  destruct (Map_get k' m) eqn:G; [discriminate|].
  intros Hd [H|Hin].
  - injection H as -> ->. now rewrite str_eqb_refl.
  - pose proof (Map_get_None_In _ _ _ G Hin) as Hne. cbn [fst] in Hne.
    rewrite str_eqb_neq by congruence. auto.
Qed.

Lemma update_value_None f (acc : Map) :
  map (update_value f []) acc = acc.
Proof.
  induction acc as [|[k v] acc IH]; cbn; [reflexivity | now rewrite IH].
Qed.

Lemma update_value_other f k v l (acc : Map) :
  (forall kv, In kv acc -> fst kv <> k) ->
  map (update_value f l) acc = map (update_value f ((k, v) :: l)) acc.
Proof.
  intros H. apply map_ext_in. intros [k0 v0] Hin.
  unfold update_value. cbn [fst snd Map_get].
  rewrite str_eqb_neq; [reflexivity|].
  intros ->. now apply (H _ Hin).
Qed.

Lemma update_value_present f k v v' l (acc : Map) :
  distinct_keys acc = true -> Map_get k acc = Some v' -> Map_get k l = None ->
  map (update_value f l) (Map_set k (f v' v) acc)
  = map (update_value f ((k, v) :: l)) acc.
Proof.
  intros Hd Hget Hl. induction acc as [|[k0 v0] acc IH]; [discriminate|].
  cbn [distinct_keys] in Hd. destruct (Map_get k0 acc) eqn:G0; [discriminate|].
  cbn [Map_get Map_set] in *. destruct (str_eqb k0 k) eqn:E.
  - apply str_eqb_eq in E. subst k0. injection Hget as ->.
    cbn [map]. f_equal.
    + unfold update_value. cbn [fst snd Map_get].
      now rewrite Hl, str_eqb_refl.
    + apply update_value_other. intros kv Hin.
      now apply (Map_get_None_In _ _ _ G0).
  - cbn [map]. f_equal; [|now apply IH].
    unfold update_value. cbn [fst snd Map_get].
    rewrite str_eqb_neq; [reflexivity|].
    intros ->. now rewrite str_eqb_refl in E.
Qed.

Lemma absent_from_Map_set_present k x v' (acc : Map) kv :
  Map_get k acc = Some v' ->
  absent_from (Map_set k x acc) kv = absent_from acc kv.
Proof.
  intros Hget. unfold absent_from.
  destruct (str_eqb k (fst kv)) eqn:E.
  - apply str_eqb_eq in E. subst k. now rewrite Map_get_set_same, Hget.
  - rewrite Map_get_set_other; [reflexivity|].
    intros ->. now rewrite str_eqb_refl in E.
Qed.

Lemma absent_from_app_other k x (acc : Map) kv :
  fst kv <> k -> absent_from (acc ++ [(k, x)]) kv = absent_from acc kv.
Proof.
  intros Hne. unfold absent_from. rewrite Map_get_app.
  destruct (Map_get (fst kv) acc); [reflexivity|].
  cbn [Map_get]. rewrite str_eqb_neq; [reflexivity | congruence].
Qed.

(** The entry loop, entry by entry. *)
Lemma for_of_update_elements f nrows ncols l :
  forall acc,
    distinct_keys acc = true -> distinct_keys l = true ->
    forallb (fun kv => stored_within nrows ncols (fst kv)) l = true ->
    for_of l (update_entry f)
      {| rows := nrows; cols := ncols; elements := acc |}
    = Return {| rows := nrows; cols := ncols; elements := merged f acc l |}.
Proof.
  induction l as [|[k v] l IH]; intros acc Hacc Hd Hw.
  - cbn [for_of]. unfold merged. cbn [filter map].
    now rewrite update_value_None, app_nil_r.
  - cbn [distinct_keys] in Hd. destruct (Map_get k l) eqn:Hkl; [discriminate|].
    cbn [forallb fst] in Hw. apply andb_true_iff in Hw as [Hk Hw].
    apply stored_within_inv in Hk as (r & c & -> & Hr & Hc & Hkc).
    cbn [for_of]. unfold update_entry at 1. rewrite Hkc. cbn [modelled bind].
    unfold getElement, setElement. cbn [rows cols elements].
    destruct (Nat.leb_spec nrows r); [lia|].
    destruct (Nat.leb_spec ncols c); [lia|].
    rewrite IH; [|now apply distinct_keys_Map_set|exact Hd|exact Hw].
    do 2 f_equal. unfold merged. cbn [filter].
    destruct (Map_get (key r c) acc) as [v'|] eqn:Hget.
    + assert (Habs : absent_from acc (key r c, v) = false)
        by (unfold absent_from; cbn [fst]; now rewrite Hget).
      rewrite Habs, or_zero_Some.
      rewrite (update_value_present f (key r c) v v' l acc Hacc Hget Hkl).
      f_equal. f_equal. apply filter_ext_in. intros kv _.
      now apply (absent_from_Map_set_present _ _ v').
    + assert (Habs : absent_from acc (key r c, v) = true)
        by (unfold absent_from; cbn [fst]; now rewrite Hget).
      rewrite Habs. cbn [or_zero]. rewrite (Map_set_fresh _ _ _ Hget).
      rewrite map_app, <- app_assoc. cbn [map app fst snd]. f_equal.
      * apply update_value_other. intros kv Hin.
        now apply (Map_get_None_In _ _ _ Hget).
      * f_equal.
        -- unfold update_value. cbn [fst snd]. now rewrite Hkl.
        -- f_equal. apply filter_ext_in. intros kv Hin.
           apply absent_from_app_other. now apply (Map_get_None_In _ _ _ Hkl).
Qed.

Lemma merged_copy (l : Map) : merged (fun _ v => v) [] l = l.
Proof.
  unfold merged. cbn [map app].
  induction l as [|[k v] l IH]; cbn; [reflexivity | now rewrite IH].
Qed.

(** Both loops of [add] and [subtract] on operands of equal dimensions. *)
Lemma entrywise_elements (f : Z -> Z -> Z) (A B : SparseMatrix) :
  well_formed A -> well_formed B -> rows A = rows B -> cols A = cols B ->
  (result <- for_of (elements A) copy_entry
               (new_SparseMatrix (rows A) (cols A)) ;;
   for_of (elements B) (update_entry f) result)
  = Return {| rows := rows A; cols := cols A;
              elements := merged f (elements A) (elements B) |}.
Proof.
  intros [HdA HwA] [HdB HwB] Hr Hc.
  rewrite copy_entry_update. unfold new_SparseMatrix.
  rewrite (for_of_update_elements (fun _ v => v) (rows A) (cols A) (elements A) []
             eq_refl HdA HwA).
  cbn [bind]. rewrite merged_copy.
  apply for_of_update_elements; [exact HdA | exact HdB|].
  now rewrite Hr, Hc.
Qed.

Lemma add_elements (A B : SparseMatrix) :
  well_formed A -> well_formed B -> rows A = rows B -> cols A = cols B ->
  add A B = Return {| rows := rows A; cols := cols A;
                      elements := merged Z.add (elements A) (elements B) |}.
Proof.
  intros HA HB Hr Hc. unfold add. rewrite dims_agree_test by assumption.
  apply (entrywise_elements Z.add A B); assumption.
Qed.

Lemma subtract_elements (A B : SparseMatrix) :
  well_formed A -> well_formed B -> rows A = rows B -> cols A = cols B ->
  subtract A B = Return {| rows := rows A; cols := cols A;
                           elements := merged Z.sub (elements A) (elements B) |}.
Proof.
  intros HA HB Hr Hc. unfold subtract. rewrite dims_agree_test by assumption.
  apply (entrywise_elements Z.sub A B); assumption.
Qed.



Lemma merged_empty_right f (acc : Map) : merged f acc [] = acc.
Proof. unfold merged. cbn [filter map]. now rewrite update_value_None, app_nil_r. Qed.

Lemma merged_add_empty_left (l : Map) : merged Z.add [] l = l.
Proof.
  unfold merged. cbn [map app].
  induction l as [|[k v] l IH]; [reflexivity|].
  cbn [filter absent_from Map_get fst snd map]. f_equal. exact IH.
Qed.

(** X3: adding the empty matrix of the same declared dimensions, on
    either side, returns a matrix equal to the operand: same rows, cols and
    entries in the same order. *)
Theorem add_empty_identity (A : SparseMatrix) :
  well_formed A ->
  add A (new_SparseMatrix (rows A) (cols A)) = Return A /\
  add (new_SparseMatrix (rows A) (cols A)) A = Return A.
Proof.
  intros HA.
  assert (HZ : well_formed (new_SparseMatrix (rows A) (cols A)))
    by apply well_formed_new.
  split.
  - rewrite (add_elements A _ HA HZ eq_refl eq_refl).
    cbn [new_SparseMatrix elements]. rewrite merged_empty_right. now destruct A.
  - rewrite (add_elements _ A HZ HA eq_refl eq_refl).
    cbn [new_SparseMatrix elements rows cols].
    rewrite merged_add_empty_left. now destruct A.
Qed.

Lemma add_empty_identity_witness :
  well_formed sample_top /\
  add sample_top (new_SparseMatrix 2 2) = Return sample_top /\
  add (new_SparseMatrix 2 2) sample_top = Return sample_top.
Proof.
  assert (HA : well_formed sample_top) by (split; reflexivity).
  split; [exact HA|]. exact (add_empty_identity sample_top HA).
Defined.

Lemma filter_none {A} (p : A -> bool) (l : list A) :
  (forall x, In x l -> p x = false) -> filter p l = [].
Proof.
  induction l as [|x l IH]; intros H; cbn [filter]; [reflexivity|].
  rewrite (H x (or_introl eq_refl)). apply IH. intros y Hy. apply H. now right.
Qed.

Lemma merged_sub_self (l : Map) :
  distinct_keys l = true ->
  merged Z.sub l l = map (fun kv => (fst kv, 0%Z)) l.
Proof.
  intros Hd. unfold merged. rewrite filter_none.
  - cbn [map]. rewrite app_nil_r. apply map_ext_in. intros [k v] Hin.
    unfold update_value. cbn [fst snd].
    rewrite (In_Map_get k v l Hd Hin). cbn [updated]. f_equal. lia.
  - intros [k v] Hin. unfold absent_from. cbn [fst].
    now rewrite (In_Map_get k v l Hd Hin).
Qed.

(** X9: [subtract] keeps a zero difference as a stored entry: [A.subtract(A)]
    returns a matrix with the declared dimensions of [A] and one entry per
    entry of [A], same keys in the same order, every value 0. *)
Theorem subtract_self_stores_zeros (A : SparseMatrix) :
  well_formed A ->
  subtract A A
  = Return {| rows := rows A; cols := cols A;
              elements := map (fun kv => (fst kv, 0%Z)) (elements A) |}.
Proof.
  intros HA. rewrite (subtract_elements A A HA HA eq_refl eq_refl).
  now rewrite (merged_sub_self _ (proj1 HA)).
Qed.

Lemma subtract_self_stores_zeros_witness :
  well_formed sample_top /\
  subtract sample_top sample_top
  = Return {| rows := 2; cols := 2;
              elements := [(key 0 0, 0%Z); (key 0 1, 0%Z)] |}.
Proof.
  assert (HA : well_formed sample_top) by (split; reflexivity).
  split; [exact HA|]. exact (subtract_self_stores_zeros sample_top HA).
Defined.

(** ** [multiply] by a matrix that reads 0 everywhere *)

Lemma multiply_step_zero other row col value1 (ks : list nat) :
  (forall c k, getElement other c k = 0%Z) ->
  forall R, fold_left (multiply_step other row col value1) ks R = R.
Proof.
  intros Hz. induction ks as [|k ks IH]; intros R; cbn [fold_left]; [reflexivity|].
  unfold multiply_step at 2. rewrite Hz. cbn [Z.eqb negb]. apply IH.
Qed.

Lemma multiply_loop_zero other nrows ncols (l : Map) :
  (forall c k, getElement other c k = 0%Z) ->
  forallb (fun kv => stored_within nrows ncols (fst kv)) l = true ->
  forall R, for_of l (multiply_entry other) R = Return R.
Proof.
  intros Hz. induction l as [|[k v] l IH]; intros Hw R; [reflexivity|].
  cbn [forallb fst] in Hw. apply andb_true_iff in Hw as [Hk Hw].
  apply stored_within_inv in Hk as (r & c & -> & _ & _ & Hkc).
  cbn [for_of]. unfold multiply_entry at 1. rewrite Hkc. cbn [modelled bind].
  rewrite multiply_step_zero by exact Hz. now apply IH.
Qed.

(** X7: [multiply] stores no entry for a zero factor: when every element
    of the second operand reads 0 (none stored, or zeros stored), the
    product is the matrix of dimensions [(rows A, cols B)] without any
    entry. *)
Theorem multiply_by_zero (A B : SparseMatrix) :
  well_formed A -> cols A = rows B ->
  (forall c k, getElement B c k = 0%Z) ->
  multiply A B = Return (new_SparseMatrix (rows A) (cols B)).
Proof.
  intros [_ Hw] Hdim Hz. unfold multiply.
  apply Nat.eqb_eq in Hdim. rewrite Hdim. cbn [negb].
  apply (multiply_loop_zero B (rows A) (cols A) (elements A) Hz Hw).
Qed.

Lemma multiply_by_zero_witness :
  well_formed sample_diagonal /\
  cols sample_diagonal = rows (new_SparseMatrix 2 3) /\
  (forall c k, getElement (new_SparseMatrix 2 3) c k = 0%Z) /\
  multiply sample_diagonal (new_SparseMatrix 2 3)
  = Return (new_SparseMatrix 2 3).
Proof.
  assert (HA : well_formed sample_diagonal) by (split; reflexivity).
  assert (Hz : forall c k, getElement (new_SparseMatrix 2 3) c k = 0%Z)
    by (intros c k; reflexivity).
  split; [exact HA|]. split; [reflexivity|]. split; [exact Hz|].
  exact (multiply_by_zero sample_diagonal (new_SparseMatrix 2 3) HA eq_refl Hz).
Defined.

(** ** The text [toString] writes and [fromFile] reads *)









(** ** What [fromFile] tolerates and what it rejects *)

Lemma split_nonempty sep s : split sep s <> [].
Proof.
  destruct s as [|c s]; simpl; [discriminate|].
  destruct (Ascii.eqb c sep); [discriminate|].
  destruct (split sep s); discriminate.
Qed.

Lemma split_trailing_sep sep s : split sep (s ++ [sep]) = split sep s ++ [[]].
Proof.
  induction s as [|c s IH]; cbn [app split].
  - now rewrite Ascii.eqb_refl.
  - rewrite IH. destruct (Ascii.eqb c sep); [reflexivity|].
    pose proof (split_nonempty sep s) as Hne.
    destruct (split sep s) as [|p ps]; [contradiction | reflexivity].
Qed.

Lemma trim_empty : trim [] = [].
Proof. reflexivity. Qed.

Lemma lines_of_trailing_LF content :
  lines_of (content ++ [LF]) = lines_of content ++ [[]].
Proof. unfold lines_of. now rewrite split_trailing_sep, map_app. Qed.

Lemma parse_elements_trailing_blank filePath rest :
  forall i m,
    parse_elements filePath (rest ++ [[]]) i m = parse_elements filePath rest i m.
Proof.
  induction rest as [|line rest IH]; intros i m; cbn [app parse_elements];
    [reflexivity|].
  destruct line as [|ch line]; [apply IH|].
  destruct (element_re (ch :: line)) as [[[g1 g2] g3]|]; [|reflexivity].
  destruct (coordinate g1) as [row|]; [|reflexivity].
  destruct (coordinate g2) as [col|]; [|reflexivity].
  destruct (parseInt g3) as [value|]; [|reflexivity].
  cbn [modelled bind]. apply IH.
Qed.

(** X12: a newline at the end of a source of at least two lines changes
    nothing: the empty last line it adds is skipped. *)
Theorem trailing_newline_ignored (filePath content : jsstring) :
  2 <= List.length (lines_of content) ->
  parse filePath (content ++ [LF]) = parse filePath content.
Proof.
  intros Hlen. unfold parse. fold (lines_of (content ++ [LF])).
  fold (lines_of content). rewrite lines_of_trailing_LF.
  rewrite length_app. cbn [List.length].
  destruct (Nat.ltb_spec (List.length (lines_of content) + 1) 2); [lia|].
  destruct (Nat.ltb_spec (List.length (lines_of content)) 2); [lia|].
  rewrite !app_nth1 by lia.
  rewrite skipn_app.
  replace (2 - List.length (lines_of content)) with 0 by lia. cbn [skipn].
  destruct (rows_re (nth 0 (lines_of content) [])) as [g1|]; [|reflexivity].
  destruct (cols_re (nth 1 (lines_of content) [])) as [g2|]; [|reflexivity].
  destruct (coordinate g1) as [totalRows|]; [|reflexivity].
  destruct (coordinate g2) as [totalCols|]; [|reflexivity].
  cbn [modelled bind]. apply parse_elements_trailing_blank.
Qed.

Lemma trailing_newline_ignored_witness :
  2 <= List.length (lines_of garbage_source) /\
  parse "m.txt" (garbage_source ++ [LF]) = parse "m.txt" garbage_source.
Proof.
  assert (H : 2 <= List.length (lines_of garbage_source)) by (vm_compute; lia).
  split; [exact H|]. exact (trailing_newline_ignored "m.txt" garbage_source H).
Defined.





Lemma split_single sep s : List.length (split sep s) < 2 <-> free_of sep s.
Proof.
  unfold free_of. induction s as [|c s IH]; cbn [split forallb].
  - cbn. split; [reflexivity | lia].
  - pose proof (split_nonempty sep s) as Hne.
    destruct (Ascii.eqb c sep); cbn [negb andb].
    + cbn [List.length]. destruct (split sep s); [contradiction|].
      cbn [List.length]. split; [lia | discriminate].
    + rewrite <- IH. destruct (split sep s) as [|p ps]; [contradiction|].
      cbn [List.length]. reflexivity.
Qed.

Lemma too_short_not_dimension filePath :
  too_short_error filePath <> dimension_error filePath.
Proof. unfold too_short_error, dimension_error, new_Error. cbn. discriminate. Qed.

Lemma too_short_not_line filePath k line :
  too_short_error filePath <> line_error filePath k line.
Proof. unfold too_short_error, line_error, new_Error. cbn. discriminate. Qed.

Lemma parse_past_length filePath content :
  2 <= List.length (lines_of content) ->
  parse filePath content <> Throw (too_short_error filePath).
Proof.
  intros Hlen. unfold parse. fold (lines_of content).
  destruct (Nat.ltb_spec (List.length (lines_of content)) 2); [lia|].
  destruct (rows_re (nth 0 (lines_of content) [])) as [g1|] eqn:H1.
  2:{ intros E. injection E as E.
      apply (too_short_not_dimension filePath). unfold too_short_error,
        dimension_error, new_Error. now rewrite E. }
  destruct (cols_re (nth 1 (lines_of content) [])) as [g2|] eqn:H2.
  2:{ intros E. injection E as E.
      apply (too_short_not_dimension filePath). unfold too_short_error,
        dimension_error, new_Error. now rewrite E. }
  apply dim_search_digits in H1 as [Hn1 Hd1], H2 as [Hn2 Hd2].
  rewrite !coordinate_digits by assumption. cbn [modelled bind].
  intros E. apply parse_elements_Throw in E as (k & line & E).
  now apply too_short_not_line in E.
Qed.

(** X14: parsing throws the error for too few lines exactly when the
    content holds no newline, the empty content included; a content with a
    newline gets past that check whatever its lines are. *)
Theorem too_short_iff_no_newline (filePath content : jsstring) :
  parse filePath content = Throw (too_short_error filePath)
  <-> free_of LF content.
Proof.
  rewrite <- split_single. split.
  - intros Hthrow.
    destruct (Nat.lt_ge_cases (List.length (split LF content)) 2) as [H|H];
      [exact H|].
    exfalso. apply (parse_past_length filePath content); [|exact Hthrow].
    unfold lines_of. now rewrite length_map.
  - intros H. apply parse_too_short. unfold lines_of. now rewrite length_map.
Qed.

Lemma fromFile_readable_parse fs filePath content :
  fs filePath = ReadOk content -> fromFile fs filePath = parse filePath content.
Proof.
  intros Hfs. unfold fromFile. rewrite Hfs.
  destruct (parse filePath content) as [m|e|] eqn:Hp; try reflexivity.
  pose proof (parse_Throw_no_code _ _ _ Hp) as Hno.
  unfold code_is. now rewrite Hno.
Qed.

(** X15: on a source that can be read, the [catch] block of [fromFile]
    changes nothing: the call returns what parsing the content returns and
    throws the very error parsing throws. *)
Theorem fromFile_readable (fs : filesystem) (filePath content : jsstring) :
  fs filePath = ReadOk content ->
  fromFile fs filePath = parse filePath content.
Proof. apply fromFile_readable_parse. Qed.

Lemma fromFile_readable_witness :
  saveToFile sample_top empty_fs "a.txt" "a.txt" = ReadOk (toString sample_top) /\
  fromFile (saveToFile sample_top empty_fs "a.txt") "a.txt"
  = parse "a.txt" (toString sample_top).
Proof.
  split; [reflexivity|].
  exact (fromFile_readable (saveToFile sample_top empty_fs "a.txt") "a.txt"
           (toString sample_top) eq_refl).
Defined.

(** * The driver *)

(** X16: a matrix that fails to load ends the session at once: the error's
    message is printed after [Error:], the interface is closed, nothing is
    written and the lines typed after the failing path are not read, so the
    second path (or the choice) is never asked. *)
Theorem failed_load_ends_session
  (not_a_function : jsstring) (write_error : jsstring -> option Error)
  (fs : filesystem) (path1 path2 : jsstring) (typed : list jsstring)
  (m1 : SparseMatrix) (e : Error) :
  (fromFile fs path1 = Throw e ->
   performCalculations not_a_function write_error (path1 :: typed) fs
   = ({| answers := typed; shown := menu ++ ask_first :: reported e;
         files := fs |}, Normal tt)) /\
  (fromFile fs path1 = Return m1 -> fromFile fs path2 = Throw e ->
   performCalculations not_a_function write_error (path1 :: path2 :: typed) fs
   = ({| answers := typed;
         shown := menu ++ [ask_first;
                           console_log ("First matrix loading........" ++ [LF]);
                           ask_second] ++ reported e;
         files := fs |}, Normal tt)).
Proof.
  split.
  - intros H1. unfold performCalculations, calculations.
    cbn [and_then log log_entries operations_entries ask show answers shown
           files app load completed].
    rewrite H1. reflexivity.
  - intros H1 H2. unfold performCalculations, calculations.
    cbn [and_then log log_entries operations_entries ask show answers shown
           files app load completed].
    rewrite H1.
    cbn [and_then log log_entries operations_entries ask show answers shown
           files app load completed].
    rewrite H2. reflexivity.
Qed.

(** The body up to the answer to the third prompt. *)
Lemma both_loaded nf we fs path1 path2 choice typed m1 m2 :
  fromFile fs path1 = Return m1 -> fromFile fs path2 = Return m2 ->
  calculations nf we
    {| answers := path1 :: path2 :: choice :: typed; shown := []; files := fs |}
  = match operations choice with
    | undefined => raise (new_Error "Invalid operation choice.")
    | inherited => raise (new_Error nf)
    | own name method =>
        resultMatrix <== completed (call_method method m1 m2) ;;
        _ <== log ("Output of " ++ name ++ "........" ++ [LF]) ;;
        outputPath <== ask "Enter the file path to save the result: " ;;
        _ <== save we resultMatrix outputPath ;;
        log ("Output file saved to " ++ outputPath)
    end {| answers := typed; shown := loaded_and_asked; files := fs |}.
Proof.
  intros H1 H2. unfold calculations.
  cbn [and_then log log_entries operations_entries ask show answers shown
         files app load completed].
  rewrite H1.
  cbn [and_then log log_entries operations_entries ask show answers shown
         files app load completed].
  rewrite H2. reflexivity.
Qed.

Lemma operations_undefined (choice : jsstring) :
  choice <> "1" -> choice <> "2" -> choice <> "3" ->
  ~ In choice Object_prototype_names ->
  operations choice = undefined.
Proof.
  intros H1 H2 H3 Hp. unfold operations.
  rewrite !str_eqb_neq by assumption.
  destruct (existsb (str_eqb choice) Object_prototype_names) eqn:E; [|reflexivity].
  apply existsb_exists in E as (name & Hin & Heq).
  apply str_eqb_eq in Heq. subst name. contradiction.
Qed.

Lemma operations_inherited (choice : jsstring) :
  In choice Object_prototype_names -> operations choice = inherited.
Proof.
  intros Hin. unfold operations.
  assert (E : existsb (str_eqb choice) Object_prototype_names = true).
  { apply existsb_exists. exists choice. split; [exact Hin | apply str_eqb_refl]. }
  rewrite E.
  repeat (destruct Hin as [<-|Hin]; [reflexivity|]). contradiction.
Qed.

(** X17: a selector that is neither [1], [2] nor [3], nor a name every
    object inherits, is reported as [Invalid operation choice.] once both
    matrices are loaded; the output path is not asked and nothing is
    written. *)
Theorem invalid_choice_reported
  (not_a_function : jsstring) (write_error : jsstring -> option Error)
  (fs : filesystem) (path1 path2 choice : jsstring) (typed : list jsstring)
  (m1 m2 : SparseMatrix) :
  fromFile fs path1 = Return m1 -> fromFile fs path2 = Return m2 ->
  choice <> "1" -> choice <> "2" -> choice <> "3" ->
  ~ In choice Object_prototype_names ->
  performCalculations not_a_function write_error
    (path1 :: path2 :: choice :: typed) fs
  = ({| answers := typed;
        shown := loaded_and_asked
                 ++ reported (new_Error "Invalid operation choice.");
        files := fs |}, Normal tt).
Proof.
  intros H1 H2 Hc1 Hc2 Hc3 Hp. unfold performCalculations.
  rewrite (both_loaded _ _ fs path1 path2 choice typed m1 m2 H1 H2).
  rewrite (operations_undefined choice Hc1 Hc2 Hc3 Hp). reflexivity.
Qed.

(** X18: a selector that names a property every object inherits (such as
    [toString] or [constructor]) is not reported as an invalid choice: the
    table lookup finds the inherited member, the method call fails and the
    engine's [TypeError] message is printed; nothing is written. *)
Theorem inherited_choice_not_rejected
  (not_a_function : jsstring) (write_error : jsstring -> option Error)
  (fs : filesystem) (path1 path2 choice : jsstring) (typed : list jsstring)
  (m1 m2 : SparseMatrix) :
  fromFile fs path1 = Return m1 -> fromFile fs path2 = Return m2 ->
  In choice Object_prototype_names ->
  performCalculations not_a_function write_error
    (path1 :: path2 :: choice :: typed) fs
  = ({| answers := typed;
        shown := loaded_and_asked ++ reported (new_Error not_a_function);
        files := fs |}, Normal tt).
Proof.
  intros H1 H2 Hp. unfold performCalculations.
  rewrite (both_loaded _ _ fs path1 path2 choice typed m1 m2 H1 H2).
  rewrite (operations_inherited choice Hp). reflexivity.
Qed.

Lemma dispatch_operations choice name op :
  In (choice, name, op) dispatch ->
  exists method,
    operations choice = own name method /\ call_method method = op.
Proof.
  intros [H|[H|[H|[]]]]; injection H as <- <- <-; eexists; split; reflexivity.
Qed.

(** X19: the selectors [1], [2] and [3] call [add], [subtract] and
    [multiply] on the first matrix with the second as argument; when the
    method throws, its message is reported, the output path is not asked
    and nothing is written. *)
Theorem failed_operation_reported
  (not_a_function : jsstring) (write_error : jsstring -> option Error)
  (fs : filesystem) (path1 path2 choice name : jsstring)
  (op : SparseMatrix -> SparseMatrix -> completion SparseMatrix)
  (typed : list jsstring) (m1 m2 : SparseMatrix) (e : Error) :
  fromFile fs path1 = Return m1 -> fromFile fs path2 = Return m2 ->
  In (choice, name, op) dispatch -> op m1 m2 = Throw e ->
  performCalculations not_a_function write_error
    (path1 :: path2 :: choice :: typed) fs
  = ({| answers := typed; shown := loaded_and_asked ++ reported e;
        files := fs |}, Normal tt).
Proof.
  intros H1 H2 Hd Hop. unfold performCalculations.
  rewrite (both_loaded _ _ fs path1 path2 choice typed m1 m2 H1 H2).
  destruct (dispatch_operations _ _ _ Hd) as (method & -> & Hm).
  cbn [and_then completed]. rewrite Hm, Hop. reflexivity.
Qed.


Lemma fromFile_well_formed fs filePath m :
  fromFile fs filePath = Return m -> well_formed m.
Proof.
  intros H. apply fromFile_Return in H as (content & _ & Hp).
  now apply parse_well_formed in Hp.
Qed.


(** X21: when writing the result fails, the error [writeFileSync] throws
    is reported after the output path was asked, and the files are as they
    were. *)
Theorem failed_write_reported
  (not_a_function : jsstring) (write_error : jsstring -> option Error)
  (fs : filesystem) (path1 path2 choice name out : jsstring)
  (op : SparseMatrix -> SparseMatrix -> completion SparseMatrix)
  (typed : list jsstring) (m1 m2 R : SparseMatrix) (e : Error) :
  fromFile fs path1 = Return m1 -> fromFile fs path2 = Return m2 ->
  In (choice, name, op) dispatch -> op m1 m2 = Return R ->
  write_error out = Some e ->
  performCalculations not_a_function write_error
    (path1 :: path2 :: choice :: out :: typed) fs
  = ({| answers := typed;
        shown := loaded_and_asked
                 ++ [console_log ("Output of " ++ name ++ "........" ++ [LF]);
                     ask_output] ++ reported e;
        files := fs |}, Normal tt).
Proof.
  intros H1 H2 Hd Hop Hw. unfold performCalculations.
  rewrite (both_loaded _ _ fs path1 path2 choice (out :: typed) m1 m2 H1 H2).
  destruct (dispatch_operations _ _ _ Hd) as (method & -> & Hm).
  cbn [and_then completed]. rewrite Hm, Hop.
  unfold and_then, log, ask, save, show. cbn [answers shown files].
  rewrite Hw. cbn [reported app]. rewrite <- !app_assoc. reflexivity.
Qed.

(** ** Every session *)

Lemma parse_elements_modelled filePath rest :
  forall i m, parse_elements filePath rest i m <> Unmodelled.
Proof.
  induction rest as [|line rest IH]; intros i m; cbn [parse_elements];
    [discriminate|].
  destruct line as [|ch line]; [apply IH|].
  destruct (element_re (ch :: line)) as [[[g1 g2] g3]|] eqn:Hre; [|discriminate].
  destruct (matched_line_applied _ _ _ _ Hre)
    as (row & col & value & -> & -> & ->).
  cbn [modelled bind]. apply IH.
Qed.

Lemma parse_modelled filePath content : parse filePath content <> Unmodelled.
Proof.
  unfold parse.
  destruct (List.length (map trim (split LF content)) <? 2)%nat; [discriminate|].
  destruct (rows_re _) as [g1|] eqn:H1; [|discriminate].
  destruct (cols_re _) as [g2|] eqn:H2; [|discriminate].
  apply dim_search_digits in H1 as [Hn1 Hd1], H2 as [Hn2 Hd2].
  rewrite !coordinate_digits by assumption. cbn [modelled bind].
  apply parse_elements_modelled.
Qed.

Lemma fromFile_modelled fs filePath : fromFile fs filePath <> Unmodelled.
Proof.
  unfold fromFile. destruct (fs filePath) as [content|e].
  - pose proof (parse_modelled filePath content) as Hp.
    destruct (parse filePath content) as [m|e|]; [discriminate| |contradiction].
    destruct (code_is ENOENT e); discriminate.
  - destruct (code_is ENOENT e); discriminate.
Qed.

Lemma operations_own_dispatch (choice name method : jsstring) :
  operations choice = own name method ->
  In (choice, name, call_method method) dispatch.
Proof.
  unfold operations.
  destruct (str_eqb choice "1") eqn:E1.
  { apply str_eqb_eq in E1. subst choice. intros H. injection H as <- <-.
    now left. }
  destruct (str_eqb choice "2") eqn:E2.
  { apply str_eqb_eq in E2. subst choice. intros H. injection H as <- <-.
    right. now left. }
  destruct (str_eqb choice "3") eqn:E3.
  { apply str_eqb_eq in E3. subst choice. intros H. injection H as <- <-.
    right. right. now left. }
  destruct (existsb (str_eqb choice) Object_prototype_names); discriminate.
Qed.

Lemma dispatch_modelled choice name op m1 m2 :
  In (choice, name, op) dispatch ->
  well_formed m1 -> well_formed m2 -> op m1 m2 <> Unmodelled.
Proof.
  intros [H|[H|[H|[]]]] Hm1 Hm2; injection H as <- <- <-.
  - destruct (Nat.eq_dec (rows m1) (rows m2)) as [Hr|Hr];
      [destruct (Nat.eq_dec (cols m1) (cols m2)) as [Hc|Hc]|].
    + destruct (add_returns m1 m2 Hm1 Hm2 Hr Hc) as (R & -> & _). discriminate.
    + rewrite add_throws by auto. discriminate.
    + rewrite add_throws by auto. discriminate.
  - destruct (Nat.eq_dec (rows m1) (rows m2)) as [Hr|Hr];
      [destruct (Nat.eq_dec (cols m1) (cols m2)) as [Hc|Hc]|].
    + destruct (subtract_returns m1 m2 Hm1 Hm2 Hr Hc) as (R & -> & _).
      discriminate.
    + rewrite subtract_throws by auto. discriminate.
    + rewrite subtract_throws by auto. discriminate.
  - destruct (Nat.eq_dec (cols m1) (rows m2)) as [Hd|Hd].
    + destruct (multiply_returns m1 m2 Hm1 Hd) as (R & -> & _). discriminate.
    + rewrite multiply_throws by auto. discriminate.
Qed.


(** Closes the facts about one way a session can go. *)
Ltac session_case :=
  eexists _, _; split; [reflexivity|];
  unfold loaded_and_asked, menu, ask_first, ask_second, ask_choice;
  cbn [answers shown files List.length app In];
  repeat split; try discriminate; try lia; try reflexivity;
  try (now left);
  try (intros H; repeat (destruct H as [H|H]; [discriminate H|]); exact H).

Lemma calculations_outcome nf we typed fs :
  exists s r,
    calculations nf we {| answers := typed; shown := []; files := fs |} = (s, r) /\
    r <> Outside /\
    ~ In readline_close (shown s) /\
    (4 <= List.length typed -> r <> Pending) /\
    (r = Pending -> answers s = [] /\ files s = fs) /\
    (files s = fs \/
     exists R out,
       files s = saveToFile R fs out /\
       In (writeFileSync out (toString R)) (shown s)).
Proof.
  destruct typed as [|p1 typed].
  { unfold calculations.
    cbn [and_then log log_entries operations_entries ask show answers shown
           files app load completed].
    session_case. }
  destruct (fromFile fs p1) as [m1|e1|] eqn:H1.
  3:{ now apply fromFile_modelled in H1. }
  2:{ unfold calculations.
      cbn [and_then log log_entries operations_entries ask show answers shown
             files app load completed].
      rewrite H1. session_case. }
  destruct typed as [|p2 typed].
  { unfold calculations.
    cbn [and_then log log_entries operations_entries ask show answers shown
           files app load completed].
    rewrite H1.
    cbn [and_then log log_entries operations_entries ask show answers shown
           files app load completed].
    session_case. }
  destruct (fromFile fs p2) as [m2|e2|] eqn:H2.
  3:{ now apply fromFile_modelled in H2. }
  2:{ unfold calculations.
      cbn [and_then log log_entries operations_entries ask show answers shown
             files app load completed].
      rewrite H1.
      cbn [and_then log log_entries operations_entries ask show answers shown
             files app load completed].
      rewrite H2. session_case. }
  destruct typed as [|choice typed].
  { unfold calculations.
    cbn [and_then log log_entries operations_entries ask show answers shown
           files app load completed].
    rewrite H1.
    cbn [and_then log log_entries operations_entries ask show answers shown
           files app load completed].
    rewrite H2.
    cbn [and_then log log_entries operations_entries ask show answers shown
           files app load completed].
    session_case. }
  rewrite (both_loaded nf we fs p1 p2 choice typed m1 m2 H1 H2).
  destruct (operations choice) as [name method| |] eqn:Hop.
  - pose proof (operations_own_dispatch _ _ _ Hop) as Hd.
    cbn [and_then completed].
    destruct (call_method method m1 m2) as [R|e|] eqn:Hcall.
    + unfold and_then, log, ask, save, show. cbn [answers shown files].
      destruct typed as [|out typed]; [session_case|].
      destruct (we out) as [e|]; [session_case|].
      session_case. right. exists R, out. split; [reflexivity|].
      repeat ((left; reflexivity) || right).
    + session_case.
    + exfalso. revert Hcall.
      apply (dispatch_modelled choice name (call_method method) m1 m2 Hd);
        eauto using fromFile_well_formed.
  - session_case.
  - session_case.
Qed.

(** X22: every session stays within the four prompts: with four lines
    typed it always ends, otherwise it ends or waits at a prompt with all
    lines read.  A session that ends closes the interface as its last act
    and only then; one that waits has closed and written nothing.  The
    files are as before or differ by one [saveToFile] of a result, whose
    write is among the events. *)
Theorem every_session
  (not_a_function : jsstring) (write_error : jsstring -> option Error)
  (typed : list jsstring) (fs : filesystem) :
  exists s r,
    performCalculations not_a_function write_error typed fs = (s, r) /\
    (r = Normal tt \/ r = Pending) /\
    (4 <= List.length typed -> r = Normal tt) /\
    (r = Normal tt ->
     exists before,
       shown s = before ++ [readline_close] /\ ~ In readline_close before) /\
    (r = Pending ->
     answers s = [] /\ ~ In readline_close (shown s) /\ files s = fs) /\
    (files s = fs \/
     exists R out,
       files s = saveToFile R fs out /\
       In (writeFileSync out (toString R)) (shown s)).
Proof.
  destruct (calculations_outcome not_a_function write_error typed fs)
    as (s & r & Hrun & Hout & Hclose & Hfour & Hpend & Hfiles).
  unfold performCalculations. rewrite Hrun.
  destruct r as [[]|e| |].
  - eexists _, _. split; [reflexivity|]. cbn [show answers shown files].
    split; [now left|]. split; [reflexivity|]. split.
    { intros _. now exists (shown s). }
    split; [discriminate|].
    destruct Hfiles as [Hf|(R & out & Hf & Hin)]; [now left|].
    right. exists R, out. split; [exact Hf|]. apply in_or_app. now left.
  - eexists _, _. split; [reflexivity|]. cbn [show answers shown files].
    split; [now left|]. split; [reflexivity|]. split.
    { intros _. exists (shown s ++ [console_error "Error:" (message e)]).
      split; [reflexivity|]. intros Hin. apply in_app_or in Hin as [Hin|Hin].
      - now apply Hclose.
      - destruct Hin as [Hin|[]]. discriminate Hin. }
    split; [discriminate|].
    destruct Hfiles as [Hf|(R & out & Hf & Hin)]; [now left|].
    right. exists R, out. split; [exact Hf|].
    apply in_or_app. left. apply in_or_app. now left.
  - destruct (Hpend eq_refl) as [Ha Hf].
    eexists _, _. split; [reflexivity|].
    split; [now right|]. split; [intros H4; now apply Hfour in H4|].
    split; [discriminate|]. split; [auto|]. now left.
  - contradiction.
Qed.

(** ** Sample sessions *)

Lemma sample_fs_loads :
  fromFile sample_fs "a.txt" = Return sample_diagonal /\
  fromFile sample_fs "b.txt" = Return sample_top /\
  fromFile sample_fs "c.txt" = Return sample_row /\
  fromFile sample_fs "none.txt" = Throw (not_found_error "none.txt").
Proof. repeat split; vm_compute; reflexivity. Qed.

Lemma failed_load_ends_session_witness :
  fromFile sample_fs "none.txt" = Throw (not_found_error "none.txt") /\
  performCalculations sample_TypeError writable
    (typed_lines ["none.txt"; "b.txt"]) sample_fs
  = ({| answers := ["b.txt" : jsstring];
        shown := menu ++ ask_first :: reported (not_found_error "none.txt");
        files := sample_fs |}, Normal tt).
Proof.
  assert (H : fromFile sample_fs "none.txt" = Throw (not_found_error "none.txt"))
    by apply sample_fs_loads.
  split; [exact H|].
  exact (proj1 (failed_load_ends_session sample_TypeError writable sample_fs
                  "none.txt" "b.txt" ["b.txt" : jsstring] sample_top
                  (not_found_error "none.txt")) H).
Defined.

Lemma invalid_choice_reported_witness :
  fromFile sample_fs "a.txt" = Return sample_diagonal /\
  fromFile sample_fs "b.txt" = Return sample_top /\
  ("4" : jsstring) <> "1" /\ ("4" : jsstring) <> "2" /\ ("4" : jsstring) <> "3" /\
  ~ In ("4" : jsstring) Object_prototype_names /\
  performCalculations sample_TypeError writable
    (typed_lines ["a.txt"; "b.txt"; "4"; "out.txt"]) sample_fs
  = ({| answers := ["out.txt" : jsstring];
        shown := loaded_and_asked
                 ++ reported (new_Error "Invalid operation choice.");
        files := sample_fs |}, Normal tt).
Proof.
  assert (Ha : fromFile sample_fs "a.txt" = Return sample_diagonal)
    by apply sample_fs_loads.
  assert (Hb : fromFile sample_fs "b.txt" = Return sample_top)
    by apply sample_fs_loads.
  assert (H1 : ("4" : jsstring) <> "1") by discriminate.
  assert (H2 : ("4" : jsstring) <> "2") by discriminate.
  assert (H3 : ("4" : jsstring) <> "3") by discriminate.
  assert (Hp : ~ In ("4" : jsstring) Object_prototype_names).
  { intros H. repeat (destruct H as [H|H]; [discriminate H|]). exact H. }
  split; [exact Ha|]. split; [exact Hb|]. split; [exact H1|].
  split; [exact H2|]. split; [exact H3|]. split; [exact Hp|].
  exact (invalid_choice_reported sample_TypeError writable sample_fs
           "a.txt" "b.txt" "4" ["out.txt" : jsstring] sample_diagonal sample_top
           Ha Hb H1 H2 H3 Hp).
Defined.

Lemma inherited_choice_not_rejected_witness :
  fromFile sample_fs "a.txt" = Return sample_diagonal /\
  fromFile sample_fs "b.txt" = Return sample_top /\
  In ("toString" : jsstring) Object_prototype_names /\
  performCalculations sample_TypeError writable
    (typed_lines ["a.txt"; "b.txt"; "toString"; "out.txt"]) sample_fs
  = ({| answers := ["out.txt" : jsstring];
        shown := loaded_and_asked ++ reported (new_Error sample_TypeError);
        files := sample_fs |}, Normal tt).
Proof.
  assert (Ha : fromFile sample_fs "a.txt" = Return sample_diagonal)
    by apply sample_fs_loads.
  assert (Hb : fromFile sample_fs "b.txt" = Return sample_top)
    by apply sample_fs_loads.
  assert (Hp : In ("toString" : jsstring) Object_prototype_names)
    by (do 8 right; now left).
  split; [exact Ha|]. split; [exact Hb|]. split; [exact Hp|].
  exact (inherited_choice_not_rejected sample_TypeError writable sample_fs
           "a.txt" "b.txt" "toString" ["out.txt" : jsstring]
           sample_diagonal sample_top Ha Hb Hp).
Defined.

Lemma failed_operation_reported_witness :
  fromFile sample_fs "a.txt" = Return sample_diagonal /\
  fromFile sample_fs "c.txt" = Return sample_row /\
  In ("3" : jsstring, "multiplication" : jsstring, multiply) dispatch /\
  multiply sample_diagonal sample_row = Throw multiply_mismatch /\
  performCalculations sample_TypeError writable
    (typed_lines ["a.txt"; "c.txt"; "3"; "out.txt"]) sample_fs
  = ({| answers := ["out.txt" : jsstring];
        shown := loaded_and_asked ++ reported multiply_mismatch;
        files := sample_fs |}, Normal tt).
Proof.
  assert (Ha : fromFile sample_fs "a.txt" = Return sample_diagonal)
    by apply sample_fs_loads.
  assert (Hc : fromFile sample_fs "c.txt" = Return sample_row)
    by apply sample_fs_loads.
  assert (Hd : In ("3" : jsstring, "multiplication" : jsstring, multiply) dispatch)
    by (right; right; now left).
  assert (Hop : multiply sample_diagonal sample_row = Throw multiply_mismatch)
    by reflexivity.
  split; [exact Ha|]. split; [exact Hc|]. split; [exact Hd|]. split; [exact Hop|].
  exact (failed_operation_reported sample_TypeError writable sample_fs
           "a.txt" "c.txt" "3" "multiplication" multiply ["out.txt" : jsstring]
           sample_diagonal sample_row multiply_mismatch Ha Hc Hd Hop).
Defined.


Lemma failed_write_reported_witness :
  fromFile sample_fs "a.txt" = Return sample_diagonal /\
  fromFile sample_fs "b.txt" = Return sample_top /\
  In ("2" : jsstring, "subtraction" : jsstring, subtract) dispatch /\
  (exists R, subtract sample_diagonal sample_top = Return R) /\
  read_only "out.txt"
  = Some {| message := "EACCES: permission denied, open 'out.txt'";
            code := Some ("EACCES" : jsstring) |} /\
  files (fst (performCalculations sample_TypeError read_only
                (typed_lines ["a.txt"; "b.txt"; "2"; "out.txt"]) sample_fs))
  = sample_fs.
Proof.
  assert (Ha : fromFile sample_fs "a.txt" = Return sample_diagonal)
    by apply sample_fs_loads.
  assert (Hb : fromFile sample_fs "b.txt" = Return sample_top)
    by apply sample_fs_loads.
  assert (Hd : In ("2" : jsstring, "subtraction" : jsstring, subtract) dispatch)
    by (right; now left).
  split; [exact Ha|]. split; [exact Hb|]. split; [exact Hd|].
  split; [eexists; reflexivity|]. split; [reflexivity|].
  pose proof (failed_write_reported sample_TypeError read_only sample_fs
                "a.txt" "b.txt" "2" "subtraction" "out.txt" subtract []
                sample_diagonal sample_top _ _ Ha Hb Hd eq_refl eq_refl) as E.
  apply (f_equal (fun r => files (fst r))) in E. exact E.
Defined.
